(** * markdown-brain: the document store, its synchroniser and the query tools

    A shallow embedding of [src/index.ts] (class [MarkdownBrainServer]).

    - JavaScript numbers that the code computes with are set sizes, their
      quotients and differences of such: they are modelled exactly, as
      rationals extended with the two infinities and [NaN].  Binary64
      rounding of a quotient of two set sizes is order preserving and
      injective on the sizes a [Set] can have, so comparisons agree.
    - A [Date] is its time value, an integral number of milliseconds.
    - [Map<string, Document>] is an association list in insertion order,
      which is the iteration order of a JavaScript [Map].
    - The front matter is typed [any]: its [tags] may be any YAML value.
      An array, a string and every other value are kept apart, because
      [includes] is membership on the first, a substring test on the
      second and missing on the rest.
    - The libraries the server calls (gray-matter, marked, natural, path,
      Fuse.js and the [Date] parser) are the fields of the class
      [Externals]; everything else is translated from the source.
    - [async] handlers are tasks suspended at their [await]s; the event
      loop is a labelled step function, one label per callback.  The
      results of [fs.readFile] and [fs.stat] come with the label.
    - The initial scan ([getMarkdownFiles], [loadDocuments]) runs before
      the watcher starts and awaits one file after the other: it is a
      function of the directory tree and of the outcome of reading each
      file.  The event loop is the watcher's. *)

From Stdlib Require Import ZArith QArith Qreduction Lia List Permutation Sorted String Ascii.
From stdpp Require Import base list gmap sets strings.

Open Scope string_scope.
Open Scope list_scope.

(** ** Numbers *)

Inductive number : Type :=
| Finite (q : Q)
| PosInfinity
| NegInfinity
| NaN.

Definition number_of_Z (z : Z) : number := Finite (inject_Z z).

(** [a / b] where [a] and [b] are the [size]s of two collections. *)
Definition size_div (a b : nat) : number :=
  match b with
  | O => match a with O => NaN | S _ => PosInfinity end
  | S _ => Finite (Qred (Z.of_nat a # Pos.of_nat b))
  end.

(** [x - y]. *)
Definition number_sub (x y : number) : number :=
  match x, y with
  | NaN, _ | _, NaN => NaN
  | Finite p, Finite q => Finite (p - q)
  | Finite _, PosInfinity => NegInfinity
  | Finite _, NegInfinity => PosInfinity
  | PosInfinity, PosInfinity => NaN
  | PosInfinity, _ => PosInfinity
  | NegInfinity, NegInfinity => NaN
  | NegInfinity, _ => NegInfinity
  end.

(** [x < y]; every comparison with [NaN] is false. *)
Definition number_lt (x y : number) : bool :=
  match x, y with
  | NaN, _ | _, NaN => false
  | Finite p, Finite q => match (p ?= q)%Q with Lt => true | _ => false end
  | _, NegInfinity => false
  | NegInfinity, _ => true
  | PosInfinity, _ => false
  | Finite _, PosInfinity => true
  end.

(** [x > 0]. *)
Definition number_positive (x : number) : bool := number_lt (Finite 0) x.

(** A value of the closed interval [[0,1]]. *)
Definition in_unit_interval (x : number) : Prop :=
  match x with
  | Finite q => (0 <= q)%Q ∧ (q <= 1)%Q
  | _ => False
  end.

(** ** Arrays *)

(** [Array.prototype.sort(comparefn)].  The sort is stable, and a
    comparator result that is [NaN] counts as [+0].  Insertion from the
    right keeps an element in front of everything it does not have to
    follow, which is the stable arrangement; for a comparator that is a
    consistent ordering this arrangement is unique, so every stable
    sorting algorithm returns it. *)
Section ArraySort.
Context {A : Type} (comparefn : A → A → number).

Definition sorts_after (x y : A) : bool := number_positive (comparefn x y).

Fixpoint sort_insert (x : A) (l : list A) : list A :=
  match l with
  | [] => [x]
  | y :: r => if sorts_after x y then y :: sort_insert x r else x :: y :: r
  end.

Definition Array_sort (l : list A) : list A := foldr sort_insert [] l.
End ArraySort.

(** [arr.slice(0, end)] for an integral [end]: a negative [end] counts
    from the end of the array. *)
Definition Array_slice0 {A : Type} (end_ : Z) (l : list A) : list A :=
  if (end_ <? 0)%Z
  then firstn (Z.to_nat (Z.max 0 (Z.of_nat (length l) + end_))) l
  else firstn (Z.to_nat end_) l.

(** ** [Map<string, V>] in insertion order *)

Definition JSMap (V : Type) : Type := list (string * V).

Definition Map_get {V} (k : string) (m : JSMap V) : option V :=
  snd <$> List.find (λ e, String.eqb (fst e) k) m.

(** [set] keeps the position of a key that is present and appends a new one. *)
Fixpoint Map_set {V} (k : string) (v : V) (m : JSMap V) : JSMap V :=
  match m with
  | [] => [(k, v)]
  | e :: r => if String.eqb (fst e) k then (k, v) :: r else e :: Map_set k v r
  end.

Definition Map_delete {V} (k : string) (m : JSMap V) : JSMap V :=
  List.filter (λ e, negb (String.eqb (fst e) k)) m.

Definition Map_values {V} (m : JSMap V) : list V := map snd m.

Definition Map_keys {V} (m : JSMap V) : list string := map fst m.

(** ** The data model *)

(** A value of the front matter, as the YAML parser hands it over.  The
    server looks at such a value in three ways: whether it is truthy,
    whether it is an array or a string (the two kinds of value that have
    an [includes] method), and which strings an array holds.  Every other
    value (null, a boolean, a number, a date, a mapping) is kept as its
    truthiness. *)
#[warnings="-register-all"]
Inductive YamlValue : Type :=
| YamlString (text : string)
| YamlArray (elements : list YamlValue)
| YamlOther (truthy : bool).

(** The front matter is an open object; the server reads its [title]
    and its [tags] only.  [tags] is whatever the author wrote under that
    key, [None] when the key is missing. *)
Record Frontmatter : Type := {
  fm_title : option string;
  fm_tags : option YamlValue;
}.

(** [interface Document].  [lastModified] is the time value of
    [stats.mtime], which the file system reports as a number of
    milliseconds: it is never an invalid date. *)
Record Document : Type := {
  doc_id : string;
  doc_path : string;
  doc_title : string;
  doc_content : string;
  doc_frontmatter : Frontmatter;
  doc_lastModified : Z;
  doc_tokens : option (list string);
}.

Record FuseKey : Type := { key_name : string; key_weight : Q }.

Record FuseOptions : Type := {
  keys : list FuseKey;
  includeScore : bool;
  threshold : Q;
  ignoreLocation : bool;
  useExtendedSearch : bool;
}.

(** A [Fuse<Document>]: the collection it was built from and its options. *)
Record Fuse : Type := { fuse_docs : list Document; fuse_options : FuseOptions }.

Record FuseResult : Type := { item : Document; score : Q }.

Definition Error : Type := string.

(** ** The libraries *)

Class Externals : Type := {
  (** [matter(content)]: the front matter and the body; malformed front
      matter throws.  The other calls are taken to return. *)
  matter : string → Error + (Frontmatter * string);
  (** [marked.parse(markdown)]. *)
  marked_parse : string → string;
  (** [s.trim()] and [s.toLowerCase()]. *)
  String_trim : string → string;
  String_toLowerCase : string → string;
  (** [tokenizer.tokenize(text)] of [natural.WordTokenizer]. *)
  tokenize : string → list string;
  (** [path.relative(from, to)] and [path.basename(p, '.md')]. *)
  path_relative : string → string → string;
  path_basename_md : string → string;
  (** The time value of [new Date(s)]; [None] is an invalid date. *)
  Date_parse : string → option Z;
  (** [fuse.search(query, { limit })]. *)
  Fuse_search : Fuse → string → Z → list FuseResult;
}.

(** ** The server state *)

Inductive LogLine : Type :=
| DocumentAdded (path : string)
| DocumentChanged (path : string)
| DocumentRemoved (filePath : string)
| ErrorLoadingDocument (filePath : string) (error : Error).

(** The fields of [MarkdownBrainServer] that the handlers read or write,
    and the lines written with [console.error], oldest first. *)
Record Server : Type := {
  docsPath : string;
  documents : JSMap Document;
  fuse : option Fuse;
  tfidf : list string;
  console : list LogLine;
}.

Definition set_documents (m : JSMap Document) (s : Server) : Server :=
  {| docsPath := docsPath s; documents := m; fuse := fuse s;
     tfidf := tfidf s; console := console s |}.

Definition set_fuse (f : option Fuse) (s : Server) : Server :=
  {| docsPath := docsPath s; documents := documents s; fuse := f;
     tfidf := tfidf s; console := console s |}.

Definition tfidf_addDocument (text : string) (s : Server) : Server :=
  {| docsPath := docsPath s; documents := documents s; fuse := fuse s;
     tfidf := tfidf s ++ [text]; console := console s |}.

Definition console_error (line : LogLine) (s : Server) : Server :=
  {| docsPath := docsPath s; documents := documents s; fuse := fuse s;
     tfidf := tfidf s; console := console s ++ [line] |}.

(** The server right after construction, before any file is loaded. *)
Definition new_server (root : string) : Server :=
  {| docsPath := root; documents := []; fuse := None; tfidf := []; console := [] |}.

(** ** Strings *)

(** A string is truthy unless it is empty. *)
Definition String_truthy (s : string) : bool := negb (String.eqb s "").

(** [s.replace(/-/g, ' ')]. *)
Fixpoint replace_dashes (s : string) : string :=
  match s with
  | EmptyString => EmptyString
  | String c r => String (if Ascii.eqb c "-" then " "%char else c) (replace_dashes r)
  end.

Fixpoint contains_gt (s : string) : bool :=
  match s with
  | EmptyString => false
  | String c r => Ascii.eqb c ">" || contains_gt r
  end.

(** [html.replace(/<[^>]*>/g, '')]: a ["<"] opens a match when a [">"]
    follows somewhere, and the match runs up to the first one. *)
Fixpoint strip_tags (s : string) : string :=
  match s with
  | EmptyString => EmptyString
  | String c r =>
      if Ascii.eqb c "<" && contains_gt r then inside_tag r
      else String c (strip_tags r)
  end
with inside_tag (s : string) : string :=
  match s with
  | EmptyString => EmptyString
  | String c r => if Ascii.eqb c ">" then strip_tags r else inside_tag r
  end.

(** [s.substring(0, n) + '...']. *)
Definition excerpt (n : nat) (s : string) : string :=
  String.append (substring 0 n s) "...".

(** ** Loading and indexing *)

Section Server.
Context `{Externals}.

Definition markdownToPlainText (markdown : string) : string :=
  let html := marked_parse markdown in
  String_trim (strip_tags html).

(** The record [loadDocument] builds from one read of the file: the
    parsed [content] and the [mtime] of the following [stat]. *)
Definition makeDocument (root filePath : string) (frontmatter : Frontmatter)
    (markdown : string) (mtime : Z) : Document :=
  let id := path_relative root filePath in
  let fallback := replace_dashes (path_basename_md filePath) in
  let title :=
    match fm_title frontmatter with
    | Some t => if String_truthy t then t else fallback
    | None => fallback
    end in
  let plainText := markdownToPlainText markdown in
  let tokens := tokenize (String_toLowerCase plainText) in
  {| doc_id := id; doc_path := filePath; doc_title := title;
     doc_content := plainText; doc_frontmatter := frontmatter;
     doc_lastModified := mtime; doc_tokens := Some tokens |}.

Definition rebuildSearchIndex (s : Server) : Server :=
  let documents := Map_values (documents s) in
  set_fuse
    (Some {| fuse_docs := documents;
             fuse_options :=
               {| keys := [ {| key_name := "title"; key_weight := 3 # 10 |};
                            {| key_name := "content"; key_weight := 5 # 10 |};
                            {| key_name := "frontmatter.tags"; key_weight := 2 # 10 |} ];
                  includeScore := true;
                  threshold := 4 # 10;
                  ignoreLocation := true;
                  useExtendedSearch := true |} |})
    s.

(** *** [loadDocument], one piece per [await]

    A handler that runs [loadDocument] is a task.  The task is
    suspended at [await fs.readFile], then at [await fs.stat], and
    then its caller waits for the promise of [loadDocument]. *)
Inductive Task : Type :=
| AwaitReadFile (filePath : string)
| AwaitStat (filePath : string) (frontmatter : Frontmatter) (markdown : string)
| AwaitLoadDocument (settled : Error + unit)
| Finished
| Rejected (error : Error).

(** The [catch] block: the error is logged and [loadDocument] returns. *)
Definition loadDocument_catch (filePath : string) (error : Error) (s : Server)
    : Server * Task :=
  (console_error (ErrorLoadingDocument filePath error) s, AwaitLoadDocument (inr ())).

(** From the completion of [fs.readFile] to [await fs.stat]. *)
Definition loadDocument_read (filePath : string) (result : Error + string)
    (s : Server) : Server * Task :=
  match result with
  | inl error => loadDocument_catch filePath error s
  | inr content =>
      match matter content with
      | inl error => loadDocument_catch filePath error s
      | inr (frontmatter, markdown) => (s, AwaitStat filePath frontmatter markdown)
      end
  end.

(** From the completion of [fs.stat] to the end of [loadDocument]. *)
Definition loadDocument_stat (filePath : string) (frontmatter : Frontmatter)
    (markdown : string) (result : Error + Z) (s : Server) : Server * Task :=
  match result with
  | inl error => loadDocument_catch filePath error s
  | inr mtime =>
      let doc := makeDocument (docsPath s) filePath frontmatter markdown mtime in
      let s := set_documents (Map_set (doc_id doc) doc (documents s)) s in
      let s := tfidf_addDocument (doc_content doc) s in
      (s, AwaitLoadDocument (inr ()))
  end.

(** *** [watchDocuments] and the event loop *)

Inductive WatchEvent : Type :=
| add (path : string)
| change (path : string)
| unlink (filePath : string).

(** What the event loop can run next: a watcher event, the completion
    of the [readFile] or of the [stat] a task waits for (with its
    result), or the rest of a handler whose [loadDocument] has settled. *)
Inductive Callback : Type :=
| Watch (event : WatchEvent)
| ReadFileDone (task : nat) (result : Error + string)
| StatDone (task : nat) (result : Error + Z)
| Resume (task : nat).

Record State : Type := { server : Server; tasks : list Task }.

Definition spawn (t : Task) (st : State) : State :=
  {| server := server st; tasks := tasks st ++ [t] |}.

Definition continue_with (k : nat) (r : Server * Task) (st : State) : State :=
  {| server := fst r; tasks := <[k := snd r]> (tasks st) |}.

(** One callback.  [None]: the callback cannot occur in that state. *)
Definition step (st : State) (c : Callback) : option State :=
  match c with
  | Watch (add path) =>
      Some (spawn (AwaitReadFile path)
              {| server := console_error (DocumentAdded path) (server st);
                 tasks := tasks st |})
  | Watch (change path) =>
      Some (spawn (AwaitReadFile path)
              {| server := console_error (DocumentChanged path) (server st);
                 tasks := tasks st |})
  | Watch (unlink filePath) =>
      let s := console_error (DocumentRemoved filePath) (server st) in
      let id := path_relative (docsPath s) filePath in
      let s := set_documents (Map_delete id (documents s)) s in
      Some {| server := rebuildSearchIndex s; tasks := tasks st |}
  | ReadFileDone k result =>
      match tasks st !! k with
      | Some (AwaitReadFile filePath) =>
          Some (continue_with k (loadDocument_read filePath result (server st)) st)
      | _ => None
      end
  | StatDone k result =>
      match tasks st !! k with
      | Some (AwaitStat filePath frontmatter markdown) =>
          Some (continue_with k
                  (loadDocument_stat filePath frontmatter markdown result (server st)) st)
      | _ => None
      end
  | Resume k =>
      match tasks st !! k with
      | Some (AwaitLoadDocument (inr _)) =>
          Some (continue_with k (rebuildSearchIndex (server st), Finished) st)
      | Some (AwaitLoadDocument (inl error)) =>
          Some (continue_with k (server st, Rejected error) st)
      | _ => None
      end
  end.

Fixpoint run (st : State) (trace : list Callback) : option State :=
  match trace with
  | [] => Some st
  | c :: rest => match step st c with Some st' => run st' rest | None => None end
  end.
End Server.

(** ** The tools *)

(** The objects the tools serialise with [JSON.stringify]. *)
Record SearchHit : Type := {
  hit_id : string;
  hit_title : string;
  hit_score : Q;
  hit_excerpt : string;
  hit_tags : YamlValue;
}.

Record DocumentView : Type := {
  view_id : string;
  view_title : string;
  view_frontmatter : Frontmatter;
  view_content : string;
  view_lastModified : Z;
}.

Record ListEntry : Type := {
  entry_id : string;
  entry_title : string;
  entry_tags : YamlValue;
  entry_lastModified : Z;
}.

Record ScoreEntry : Type := {
  se_id : string;
  se_score : number;
  se_title : string;
}.

Record DateEntry : Type := {
  de_id : string;
  de_title : string;
  de_lastModified : Z;
  de_excerpt : string;
}.

(** What a tool returns, [{ content: [{ type: 'text', text }] }]: the
    [text] is a fixed message or the JSON of a value, kept here as the
    value itself. *)
Inductive ToolResult : Type :=
| Text (text : string)
| SearchHits (formattedResults : list SearchHit)
| DocumentJson (doc : DocumentView)
| DocumentList (list_ : list ListEntry)
| SimilarDocuments (topResults : list ScoreEntry)
| DateResults (results : list DateEntry).

(** What the request handler does: it returns a result or throws. *)
Inductive Outcome : Type :=
| Return (result : ToolResult)
| Throw (message : string).

(** The arguments of a tool call, typed as the tool's [inputSchema]
    declares them (the handler's casts check nothing).  A [number] is
    integral here. *)
Inductive ToolCall : Type :=
| search_documents (query : string) (limit : option Z)
| get_document (id : string)
| list_documents (tag : option string)
| find_similar (id : string) (limit : option Z)
| search_by_date (after before : option string)
| other_tool (name : string).

Inductive CallToolRequest : Type :=
| NoArguments (name : string)
| WithArguments (call : ToolCall).

(** [limit || fallback]: [undefined] and [0] are falsy. *)
Definition number_or (limit : option Z) (fallback : Z) : Z :=
  match limit with
  | Some n => if (n =? 0)%Z then fallback else n
  | None => fallback
  end.

(** Truthiness of a front-matter value: the empty string is falsy, an
    array is truthy even when empty. *)
Definition Yaml_truthy (v : YamlValue) : bool :=
  match v with
  | YamlString text => String_truthy text
  | YamlArray _ => true
  | YamlOther truthy => truthy
  end.

(** [tags || []]: a truthy value is reported as it is. *)
Definition tags_or_empty (fm : Frontmatter) : YamlValue :=
  match fm_tags fm with
  | Some tags => if Yaml_truthy tags then tags else YamlArray []
  | None => YamlArray []
  end.

(** [text.includes(search)] on a string: [search] occurs in [text]. *)
Fixpoint String_includes (text search : string) : bool :=
  String.prefix search text
  || match text with
     | EmptyString => false
     | String _ rest => String_includes rest search
     end.

(** [tags.includes(tag)] on a truthy [tags] and a string [tag].  On an
    array it looks for an element equal to [tag], which only a string
    can be; on a string it is the substring test; any other value has no
    [includes], so the call throws a [TypeError]. *)
Definition tags_includes (tags : YamlValue) (tag : string) : Error + bool :=
  match tags with
  | YamlArray elements =>
      inr (existsb (λ element, match element with
                               | YamlString text => String.eqb text tag
                               | _ => false
                               end)
                   elements)
  | YamlString text => inr (String_includes text tag)
  | YamlOther _ => inl "doc.frontmatter.tags.includes is not a function"
  end.

(** The callback of the filter of [listDocuments],
    [doc.frontmatter.tags && doc.frontmatter.tags.includes(tag)]. *)
Definition has_tag (tag : string) (doc : Document) : Error + bool :=
  match fm_tags (doc_frontmatter doc) with
  | Some tags => if Yaml_truthy tags then tags_includes tags tag else inr false
  | None => inr false
  end.

(** [array.filter(callback)] with a callback that may throw: the elements
    are visited in order and the first exception ends the call. *)
Fixpoint Array_filter {A} (callback : A → Error + bool) (array : list A)
  : Error + list A :=
  match array with
  | [] => inr []
  | x :: rest =>
      match callback x with
      | inl error => inl error
      | inr keep =>
          match Array_filter callback rest with
          | inl error => inl error
          | inr kept => inr (if keep then x :: kept else kept)
          end
      end
  end.

(** [x > y] on two dates: the time values are compared, and an invalid
    date compares false with everything. *)
Definition Date_gt (x y : option Z) : bool :=
  match x, y with
  | Some a, Some b => (b <? a)%Z
  | _, _ => false
  end.

Definition Date_lt (x y : option Z) : bool := Date_gt y x.

Definition calculateSimilarity (doc1 doc2 : Document) : number :=
  match doc_tokens doc1, doc_tokens doc2 with
  | Some tokens1, Some tokens2 =>
      let set1 : gset string := list_to_set tokens1 in
      let set2 : gset string := list_to_set tokens2 in
      let intersection : gset string := filter (λ x, x ∈ set2) set1 in
      let union : gset string := list_to_set (elements set1 ++ elements set2) in
      size_div (size intersection) (size union)
  | _, _ => Finite 0
  end.

(** The loop of [findSimilarDocuments] over the entries of the store. *)
Fixpoint similarity_scores (targetDoc : Document) (id : string)
    (entries : JSMap Document) : list ScoreEntry :=
  match entries with
  | [] => []
  | (docId, doc) :: rest =>
      if String.eqb docId id then similarity_scores targetDoc id rest
      else {| se_id := docId; se_score := calculateSimilarity targetDoc doc;
              se_title := doc_title doc |}
           :: similarity_scores targetDoc id rest
  end.

Definition by_score_descending (a b : ScoreEntry) : number :=
  number_sub (se_score b) (se_score a).

Definition by_lastModified_descending (a b : Document) : number :=
  number_sub (number_of_Z (doc_lastModified b)) (number_of_Z (doc_lastModified a)).

Definition date_entry (doc : Document) : DateEntry :=
  {| de_id := doc_id doc; de_title := doc_title doc;
     de_lastModified := doc_lastModified doc;
     de_excerpt := excerpt 150 (doc_content doc) |}.

Section Tools.
Context `{Externals}.

Definition searchDocuments (s : Server) (query : string) (limit : Z) : ToolResult :=
  match fuse s with
  | None => Text "No documents loaded yet"
  | Some index =>
      let results := Fuse_search index query limit in
      SearchHits
        (map (λ result,
                {| hit_id := doc_id (item result);
                   hit_title := doc_title (item result);
                   hit_score := score result;
                   hit_excerpt := excerpt 200 (doc_content (item result));
                   hit_tags := tags_or_empty (doc_frontmatter (item result)) |})
             results)
  end.

Definition getDocument (s : Server) (id : string) : ToolResult :=
  match Map_get id (documents s) with
  | None => Text (String.append "Document not found: " id)
  | Some doc =>
      DocumentJson
        {| view_id := doc_id doc; view_title := doc_title doc;
           view_frontmatter := doc_frontmatter doc;
           view_content := doc_content doc;
           view_lastModified := doc_lastModified doc |}
  end.

(** [listDocuments] returns its list, or throws what the filter throws. *)
Definition listDocuments (s : Server) (tag : option string) : Outcome :=
  let docs := Map_values (documents s) in
  let filtered :=
    match tag with
    | Some t => if String_truthy t then Array_filter (has_tag t) docs else inr docs
    | None => inr docs
    end in
  match filtered with
  | inl error => Throw error
  | inr docs =>
      Return
        (DocumentList
           (map (λ doc, {| entry_id := doc_id doc; entry_title := doc_title doc;
                           entry_tags := tags_or_empty (doc_frontmatter doc);
                           entry_lastModified := doc_lastModified doc |})
                docs))
  end.

Definition findSimilarDocuments (s : Server) (id : string) (limit : Z) : ToolResult :=
  match Map_get id (documents s) with
  | None => Text (String.append "Document not found: " id)
  | Some targetDoc =>
      let scores := similarity_scores targetDoc id (documents s) in
      let scores := Array_sort by_score_descending scores in
      let topResults := Array_slice0 limit scores in
      SimilarDocuments topResults
  end.

(** The documents [searchByDate] keeps, in the order it returns them. *)
Definition searchByDate_docs (s : Server) (after before : option string)
    : list Document :=
  let docs := Map_values (documents s) in
  let docs :=
    match after with
    | Some a =>
        if String_truthy a
        then let afterDate := Date_parse a in
             List.filter (λ doc, Date_gt (Some (doc_lastModified doc)) afterDate) docs
        else docs
    | None => docs
    end in
  let docs :=
    match before with
    | Some b =>
        if String_truthy b
        then let beforeDate := Date_parse b in
             List.filter (λ doc, Date_lt (Some (doc_lastModified doc)) beforeDate) docs
        else docs
    | None => docs
    end in
  Array_sort by_lastModified_descending docs.

Definition searchByDate (s : Server) (after before : option string) : ToolResult :=
  DateResults (map date_entry (searchByDate_docs s after before)).

(** The handler of [CallToolRequestSchema]. *)
Definition callTool (s : Server) (request : CallToolRequest) : Outcome :=
  match request with
  | NoArguments _ => Throw "No arguments provided"
  | WithArguments call =>
      match call with
      | search_documents query limit => Return (searchDocuments s query (number_or limit 5))
      | get_document id => Return (getDocument s id)
      | list_documents tag => listDocuments s tag
      | find_similar id limit => Return (findSimilarDocuments s id (number_or limit 3))
      | search_by_date after before => Return (searchByDate s after before)
      | other_tool name => Throw (String.append "Unknown tool: " name)
      end
  end.
End Tools.

(** ** The vocabulary of the properties *)

(** [comes_before l a b]: an occurrence of [a] in [l] has an occurrence of [b]
    somewhere after it. *)
Fixpoint comes_before {A : Type} (l : list A) (a b : A) : Prop :=
  match l with
  | [] => False
  | x :: r => (x = a ∧ In b r) ∨ comes_before r a b
  end.

(** The token set of a document; a document without [tokens] has none. *)
Definition token_set (d : Document) : gset string :=
  match doc_tokens d with
  | Some tokens => list_to_set tokens
  | None => ∅
  end.

(** The Jaccard index, as the specification words it: the size of the
    intersection over the size of the union, for two sets that are not
    both empty. *)
Definition jaccard (X Y : gset string) : Q :=
  Qred (Z.of_nat (size (X ∩ Y)) # Pos.of_nat (size (X ∪ Y))).

(** The two kinds of score lists [findSimilarDocuments] sorts: every
    score finite, or every score [0] or [NaN]. *)
Definition finite_score (e : ScoreEntry) : Prop := ∃ q, se_score e = Finite q.

Definition null_score (e : ScoreEntry) : Prop :=
  se_score e = Finite 0 ∨ se_score e = NaN.

(** A reply that reports an error: a thrown [Error], or a message in
    place of data. *)
Definition is_error_reply (o : Outcome) : bool :=
  match o with
  | Throw _ => true
  | Return (Text _) => true
  | Return _ => false
  end.

(** [t] lies strictly between the bounds that are given. *)
Definition strictly_between (after before : option Z) (t : Z) : bool :=
  match after with Some a => (a <? t)%Z | None => true end
  && match before with Some b => (t <? b)%Z | None => true end.

Section DateBounds.
Context `{Externals}.

(** A bound is well formed when it is absent or a non-empty string that
    parses to a date; it is unparseable when it is a non-empty string
    that does not. *)
Definition well_formed_bound (bound : option string) : Prop :=
  match bound with
  | None => True
  | Some b => String_truthy b = true ∧ is_Some (Date_parse b)
  end.

Definition unparseable_bound (bound : option string) : Prop :=
  match bound with
  | None => False
  | Some b => String_truthy b = true ∧ Date_parse b = None
  end.

Definition bound_time (bound : option string) : option Z :=
  match bound with
  | None => None
  | Some b => Date_parse b
  end.
End DateBounds.

(** The weight the index gives to the key called [name]. *)
Definition key_weight_of (name : string) (index : Fuse) : option Q :=
  key_weight <$> List.find (λ k, String.eqb (key_name k) name)
                           (keys (fuse_options index)).

(** A task whose [loadDocument] has not rejected. *)
Definition not_rejected (t : Task) : Prop :=
  match t with
  | AwaitLoadDocument (inl _) | Rejected _ => False
  | _ => True
  end.

Section Traces.
Context `{Externals}.

(** The identity whose store entry a callback writes or deletes. *)
Definition written_id (st : State) (c : Callback) : option string :=
  match c with
  | Watch (unlink filePath) => Some (path_relative (docsPath (server st)) filePath)
  | StatDone k (inr _) =>
      match tasks st !! k with
      | Some (AwaitStat filePath _ _) =>
          Some (path_relative (docsPath (server st)) filePath)
      | _ => None
      end
  | _ => None
  end.

(** No callback of the trace, run from [st], writes or deletes [id]. *)
Fixpoint leaves_alone (id : string) (st : State) (trace : list Callback) : Prop :=
  match trace with
  | [] => True
  | c :: rest =>
      written_id st c ≠ Some id
      ∧ match step st c with
        | Some st' => leaves_alone id st' rest
        | None => True
        end
  end.

(** A load fails at callback [c]: the [readFile] fails, the front matter
    of what was read cannot be parsed, or the [stat] fails. *)
Definition load_fails (st : State) (k : nat) (filePath : string) (error : Error)
    (c : Callback) : Prop :=
  (tasks st !! k = Some (AwaitReadFile filePath) ∧ c = ReadFileDone k (inl error))
  ∨ (∃ content, tasks st !! k = Some (AwaitReadFile filePath)
                ∧ c = ReadFileDone k (inr content) ∧ matter content = inl error)
  ∨ (∃ frontmatter markdown,
       tasks st !! k = Some (AwaitStat filePath frontmatter markdown)
       ∧ c = StatDone k (inl error)).

End Traces.

(** ** A small instance of the libraries

    Stand-ins that are enough to run the server on concrete files:
    documents without front matter whose markdown is already plain
    text, word tokens separated by blanks, paths below the root, dates
    in the date-only form [YYYY-MM-DD] (midnight UTC), and an index in
    which every document matches and [limit] truncates the ranking
    unless it is negative.  The theorems below hold for every instance;
    only the scenarios are run on this one. *)
Module Sample.

Definition no_frontmatter : Frontmatter := {| fm_title := None; fm_tags := None |}.

Fixpoint split_words (word : string) (s : string) : list string :=
  match s with
  | EmptyString => if String.eqb word "" then [] else [word]
  | String c r =>
      if Ascii.eqb c " "
      then (if String.eqb word "" then split_words "" r else word :: split_words "" r)
      else split_words (String.append word (String c EmptyString)) r
  end.

Fixpoint strip_prefix (p s : string) : option string :=
  match p, s with
  | EmptyString, _ => Some s
  | String a p', String b s' => if Ascii.eqb a b then strip_prefix p' s' else None
  | String _ _, EmptyString => None
  end.

Definition relative (root p : string) : string :=
  match strip_prefix (String.append root "/") p with
  | Some rest => rest
  | None => p
  end.

Definition digit (c : ascii) : option Z :=
  let n := Z.of_nat (nat_of_ascii c) in
  if ((48 <=? n) && (n <=? 57))%Z then Some (n - 48)%Z else None.

Fixpoint digits (acc : Z) (l : list ascii) : option Z :=
  match l with
  | [] => Some acc
  | c :: r => match digit c with Some d => digits (10 * acc + d)%Z r | None => None end
  end.

Definition leap (y : Z) : bool :=
  ((y mod 4 =? 0) && (negb (y mod 100 =? 0) || (y mod 400 =? 0)))%Z.

Definition days_in_month (y m : Z) : Z :=
  if (m =? 2)%Z then (if leap y then 29 else 28)%Z
  else if ((m =? 4) || (m =? 6) || (m =? 9) || (m =? 11))%Z then 30%Z
  else 31%Z.

(** Days from 1970-01-01 to the civil date [y]-[m]-[d]. *)
Definition days_from_civil (y m d : Z) : Z :=
  let y' := (if m <=? 2 then y - 1 else y)%Z in
  let era := (y' / 400)%Z in
  let yoe := (y' - era * 400)%Z in
  let doy := ((153 * (if m <=? 2 then m + 9 else m - 3) + 2) / 5 + d - 1)%Z in
  let doe := (yoe * 365 + yoe / 4 - yoe / 100 + doy)%Z in
  (era * 146097 + doe - 719468)%Z.

Definition parse_date (s : string) : option Z :=
  match list_ascii_of_string s with
  | [y1; y2; y3; y4; s1; m1; m2; s2; d1; d2] =>
      if Ascii.eqb s1 "-" && Ascii.eqb s2 "-" then
        match digits 0 [y1; y2; y3; y4], digits 0 [m1; m2], digits 0 [d1; d2] with
        | Some y, Some m, Some d =>
            if ((1 <=? m) && (m <=? 12) && (1 <=? d) && (d <=? days_in_month y m))%Z
            then Some (days_from_civil y m d * 86400000)%Z
            else None
        | _, _, _ => None
        end
      else None
  | _ => None
  end.

Definition match_all (index : Fuse) (query : string) (limit : Z) : list FuseResult :=
  let results := map (λ doc, {| item := doc; score := 0 |}) (fuse_docs index) in
  if (-1 <? limit)%Z then Array_slice0 limit results else results.

Definition externals : Externals :=
  {| matter := λ content, inr (no_frontmatter, content);
     marked_parse := λ markdown, markdown;
     String_trim := λ s, s;
     String_toLowerCase := λ s, s;
     tokenize := split_words "";
     path_relative := relative;
     path_basename_md := λ p, p;
     Date_parse := parse_date;
     Fuse_search := match_all |}.

(** A server whose root is [docs], with nothing loaded and no task. *)
Definition start : @State := {| server := new_server "docs"; tasks := [] |}.

(** A document with the given identity, tokens and modification time. *)
Definition doc (id : string) (tokens : list string) (mtime : Z) : Document :=
  {| doc_id := id; doc_path := String.append "docs/" id; doc_title := id;
     doc_content := id; doc_frontmatter := no_frontmatter;
     doc_lastModified := mtime; doc_tokens := Some tokens |}.

(** A server that holds the given documents, indexed. *)
Definition holding (docs : list Document) : Server :=
  rebuildSearchIndex
    (set_documents (map (λ d, (doc_id d, d)) docs) (new_server "docs")).

(** Four documents; [b.md] and [d.md] are equally similar to [a.md]. *)
Definition library : Server :=
  holding [ doc "a.md" ["x"; "y"] 1; doc "b.md" ["x"] 2;
            doc "c.md" ["x"; "y"; "z"] 3; doc "d.md" ["y"] 4 ].

(** Two documents, modified on 2024-01-01 and on 2024-03-01. *)
Definition dated : Server :=
  holding [ doc "a.md" ["alpha"] 1704067200000; doc "b.md" ["beta"] 1709251200000 ].

(** One file below the root. *)
Definition note : string := "docs/note.md".

(** A file is added and then modified twice in quick succession.  The
    three handlers start before any of them has read the file; the
    reads return the content at the time of each read; the [stat] of
    the last handler completes before the [stat] of the one before it. *)
Definition racing_prefix : list Callback :=
  [ Watch (add note); Watch (change note); Watch (change note);
    ReadFileDone 0 (inr "draft");
    ReadFileDone 1 (inr "first edit");
    ReadFileDone 2 (inr "second edit");
    StatDone 0 (inr 1%Z); Resume 0;
    StatDone 2 (inr 3%Z); Resume 2 ].

Definition racing : list Callback :=
  racing_prefix ++ [ StatDone 1 (inr 3%Z); Resume 1 ].

(** The same three events with every handler finishing before the next
    event is delivered. *)
Definition in_turn : list Callback :=
  [ Watch (add note); ReadFileDone 0 (inr "draft"); StatDone 0 (inr 1%Z); Resume 0;
    Watch (change note); ReadFileDone 1 (inr "first edit"); StatDone 1 (inr 2%Z); Resume 1;
    Watch (change note); ReadFileDone 2 (inr "second edit"); StatDone 2 (inr 3%Z); Resume 2 ].

(** A file is loaded and then changes; the read of the change fails. *)
Definition loaded_then_changed : list Callback :=
  [ Watch (add note); ReadFileDone 0 (inr "draft"); StatDone 0 (inr 1%Z); Resume 0;
    Watch (change note) ].

Definition vanishing : list Callback :=
  loaded_then_changed ++ [ ReadFileDone 1 (inl "ENOENT"); Resume 1 ].

(** The state the server reaches from [start] by a trace. *)
Definition after (trace : list Callback) : State :=
  default start (run (H := externals) start trace).

End Sample.

(** ** The initial scan *)

(** [s.endsWith(suffix)]. *)
Definition String_endsWith (s suffix : string) : bool :=
  let n := String.length s in
  let m := String.length suffix in
  (m <=? n)%nat && String.eqb (substring (n - m) m s) suffix.

(** What [fs.readdir(dir, { withFileTypes: true })] finds: the entries
    of the directory, each a directory (with what reading it finds in
    turn, or the error of that read) or something else. *)
#[warnings="-register-all"]
Inductive Dirent : Type :=
| Dirent_other (name : string)
| Dirent_directory (name : string) (readdir : Error + list Dirent).

(** The [for] loop of [getMarkdownFiles]: what each entry contributes is
    appended in order, and the first error ends the loop. *)
Fixpoint collect_files {A : Type} (f : A → Error + list string) (entries : list A)
    : Error + list string :=
  match entries with
  | [] => inr []
  | entry :: rest =>
      match f entry with
      | inl error => inl error
      | inr found =>
          match collect_files f rest with
          | inl error => inl error
          | inr more => inr (found ++ more)
          end
      end
  end.

(** The outcome of [loadDocuments], which it writes to the console as
    its last line: the number of documents loaded, or the error of the
    directory scan. *)
Inductive LoadReport : Type :=
| LoadedDocuments (size : nat)
| ErrorLoadingDocuments (error : Error).

Section InitialScan.
Context `{Externals}.
(** [path.join(dir, name)]. *)
Variable path_join : string → string → string.

(** What one entry of [dir] adds to the files of [getMarkdownFiles]. *)
Fixpoint entry_files (dir : string) (entry : Dirent) {struct entry}
    : Error + list string :=
  match entry with
  | Dirent_other name =>
      let fullPath := path_join dir name in
      inr (if String_endsWith name ".md" then [fullPath] else [])
  | Dirent_directory name listing =>
      let fullPath := path_join dir name in
      match listing with
      | inl error => inl error
      | inr entries => collect_files (entry_files fullPath) entries
      end
  end.

(** [getMarkdownFiles(dir)], given what [fs.readdir(dir)] returns. *)
Definition getMarkdownFiles (dir : string) (listing : Error + list Dirent)
    : Error + list string :=
  match listing with
  | inl error => inl error
  | inr entries => collect_files (entry_files dir) entries
  end.

(** [loadDocument] run from its call to its return with no other
    callback in between, as [loadDocuments] awaits it; [read] and [stat]
    are the outcomes of [fs.readFile] and [fs.stat]. *)
Definition loadDocument (filePath : string) (read : Error + string)
    (stat : Error + Z) (s : Server) : Server :=
  match loadDocument_read filePath read s with
  | (s, AwaitStat filePath frontmatter markdown) =>
      fst (loadDocument_stat filePath frontmatter markdown stat s)
  | (s, _) => s
  end.

(** [loadDocuments], given the outcome of [getMarkdownFiles] and, for
    each file, the outcomes of reading it. *)
Definition loadDocuments (files : Error + list string)
    (io : string → (Error + string) * (Error + Z)) (s : Server)
    : Server * LoadReport :=
  match files with
  | inl error => (s, ErrorLoadingDocuments error)
  | inr files =>
      let s := {| docsPath := docsPath s; documents := []; fuse := fuse s;
                  tfidf := []; console := console s |} in
      let s := foldl (λ s file, loadDocument file (fst (io file)) (snd (io file)) s)
                     s files in
      let s := rebuildSearchIndex s in
      (s, LoadedDocuments (length (documents s)))
  end.
End InitialScan.

(** The entry [listDocuments] makes of a document. *)
Definition list_entry (doc : Document) : ListEntry :=
  {| entry_id := doc_id doc; entry_title := doc_title doc;
     entry_tags := tags_or_empty (doc_frontmatter doc);
     entry_lastModified := doc_lastModified doc |}.

(** ** More vocabulary *)



(** The entry [find_similar] owes to an entry of the store: its key, the
    similarity of its document to the target, and its title. *)
Definition score_entry (targetDoc : Document) (entry : string * Document)
  : ScoreEntry :=
  {| se_id := fst entry;
     se_score := calculateSimilarity targetDoc (snd entry);
     se_title := doc_title (snd entry) |}.

(** The entries of the store under another key than [id]. *)
Definition other_entries (id : string) (entries : JSMap Document)
  : list (string * Document) :=
  List.filter (λ entry, negb (String.eqb (fst entry) id)) entries.


(** The index is the snapshot of the store: it was built from the
    documents the store holds now, or it has not been built and the
    store is empty. *)
Definition index_fresh (s : Server) : Prop :=
  match fuse s with
  | Some index => fuse_docs index = Map_values (documents s)
  | None => documents s = []
  end.

(** A handler whose [loadDocument] has returned is about to rebuild the
    index. *)
Definition awaiting_rebuild (st : State) : Prop :=
  ∃ k settled, tasks st !! k = Some (AwaitLoadDocument settled).

Section StoreInvariant.
Context `{Externals}.

(** A record sits under its own [id], which is the path of its file
    relative to the root, and its tokens are those of its content. *)
Definition record_ok (root : string) (entry : string * Document) : Prop :=
  doc_id (snd entry) = fst entry
  ∧ doc_id (snd entry) = path_relative root (doc_path (snd entry))
  ∧ doc_tokens (snd entry)
    = Some (tokenize (String_toLowerCase (doc_content (snd entry)))).

Definition store_ok (s : Server) : Prop :=
  List.NoDup (Map_keys (documents s))
  ∧ Forall (record_ok (docsPath s)) (documents s).
End StoreInvariant.

(** No ["<"] of the string has a [">"] somewhere after it: the string
    holds no match of [/<[^>]*>/]. *)
Fixpoint tag_free (s : string) : Prop :=
  match s with
  | EmptyString => True
  | String c r => (c = "<"%char → contains_gt r = false) ∧ tag_free r
  end.

(** The string holds no dash. *)
Fixpoint dash_free (s : string) : Prop :=
  match s with
  | EmptyString => True
  | String c r => c ≠ "-"%char ∧ dash_free r
  end.

Section ScanVocabulary.
Context `{Externals}.
Variable path_join : string → string → string.

(** [lists_file dir entries p]: below the directory [dir] with the
    given entries there is an entry that is not a directory, whose name
    ends in [.md] and whose path is [p], and every directory on the way
    to it could be read. *)
Inductive lists_file : string → list Dirent → string → Prop :=
| lists_here (dir : string) (entries : list Dirent) (name : string) :
    In (Dirent_other name) entries →
    String_endsWith name ".md" = true →
    lists_file dir entries (path_join dir name)
| lists_below (dir : string) (entries : list Dirent) (name : string)
      (sub : list Dirent) (p : string) :
    In (Dirent_directory name (inr sub)) entries →
    lists_file (path_join dir name) sub p →
    lists_file dir entries p.

(** Some directory below the entries cannot be read. *)
Inductive unreadable_below : list Dirent → Prop :=
| unreadable_here (entries : list Dirent) (name : string) (error : Error) :
    In (Dirent_directory name (inl error)) entries → unreadable_below entries
| unreadable_deeper (entries : list Dirent) (name : string) (sub : list Dirent) :
    In (Dirent_directory name (inr sub)) entries →
    unreadable_below sub → unreadable_below entries.

(** The record one file yields when its read, its front matter and its
    [stat] all succeed. *)
Definition loaded_record (root file : string)
    (outcome : (Error + string) * (Error + Z)) : option Document :=
  match fst outcome with
  | inl _ => None
  | inr content =>
      match matter content with
      | inl _ => None
      | inr (frontmatter, markdown) =>
          match snd outcome with
          | inl _ => None
          | inr mtime => Some (makeDocument root file frontmatter markdown mtime)
          end
      end
  end.
(** The scan of one entry of a directory returns the files that
    [lists_file] describes, and fails when a directory below cannot be
    read. *)
Definition scans_entry (e : Dirent) : Prop :=
  ∀ dir,
    (∀ files, entry_files path_join dir e = inr files →
              ∀ p, In p files ↔ lists_file dir [e] p)
    ∧ ((∃ error, entry_files path_join dir e = inl error) ↔ unreadable_below [e]).
End ScanVocabulary.

(** Induction over a directory tree. *)
Section DirentInduction.
Variable P : Dirent → Prop.
Hypothesis P_other : ∀ name, P (Dirent_other name).
Hypothesis P_unreadable : ∀ name error, P (Dirent_directory name (inl error)).
Hypothesis P_directory :
  ∀ name entries, Forall P entries → P (Dirent_directory name (inr entries)).

Fixpoint Dirent_tree_ind (entry : Dirent) : P entry :=
  match entry with
  | Dirent_other name => P_other name
  | Dirent_directory name (inl error) => P_unreadable name error
  | Dirent_directory name (inr entries) =>
      P_directory name entries
        ((fix all (l : list Dirent) : Forall P l :=
            match l with
            | [] => Forall_nil_2 P
            | e :: r => Forall_cons_2 P e r (Dirent_tree_ind e) (all r)
            end) entries)
  end.
End DirentInduction.

(** ** Further scenarios *)
Module Scenario.

(** A document with the given [tags] in its front matter. *)
Definition with_tags (id : string) (tags : YamlValue) (mtime : Z) : Document :=
  {| doc_id := id; doc_path := String.append "docs/" id; doc_title := id;
     doc_content := id;
     doc_frontmatter := {| fm_title := None; fm_tags := Some tags |};
     doc_lastModified := mtime; doc_tokens := Some [] |}.

(** Four documents: one without tags, one with a list of tags, one whose
    tags are a single string, and one whose list has a number in it. *)
Definition tagged : Server :=
  Sample.holding
    [ Sample.doc "a.md" [] 1;
      with_tags "b.md" (YamlArray [YamlString "urgent"; YamlString "home"]) 2;
      with_tags "c.md" (YamlString "not-urgent") 3;
      with_tags "d.md" (YamlArray [YamlOther true; YamlString "urgently"]) 4 ].


(** A second file is added and loaded after the three events of
    [Sample.in_turn]. *)
Definition another_file : list Callback :=
  [ Watch (add "docs/other.md"); ReadFileDone 3 (inr "other text");
    StatDone 3 (inr 9%Z); Resume 3 ].

(** A stand-in for [path.join] on a directory and a plain name. *)
Definition join (dir name : string) : string :=
  String.append dir (String.append "/" name).

(** A root with two files, and a directory that holds a markdown file
    and a directory whose own name ends in [.md]. *)
Definition tree : list Dirent :=
  [ Dirent_other "readme.md"; Dirent_other "notes.txt";
    Dirent_directory "sub"
      (inr [ Dirent_other "deep.md";
             Dirent_directory "img.md" (inr [ Dirent_other "x.png" ]) ]) ].

(** The same root with a directory that cannot be read. *)
Definition locked_tree : list Dirent :=
  tree ++ [ Dirent_directory "private" (inl "EACCES") ].

(** Every file reads as its own path and was modified at time [1],
    except [docs/notes.md], which cannot be read. *)
Definition disk (file : string) : (Error + string) * (Error + Z) :=
  if String.eqb file "docs/notes.md" then (inl "EACCES", inl "EACCES")
  else (inr file, inr 1%Z).

End Scenario.

(** * Properties *)

(** ** Numbers *)

(** The comparator [(a, b) => b - a] is positive exactly when [a < b]. *)
Lemma number_sub_positive (x y : number) :
  number_positive (number_sub y x) = number_lt x y.
Proof.
  destruct x as [[pn pd]| | |], y as [[qn qd]| | |]; try reflexivity.
  unfold number_positive, number_sub, number_lt, Qcompare; simpl.
  destruct (Z.compare_spec (pn * Z.pos qd) (qn * Z.pos pd));
    destruct ((qn * Z.pos pd + - pn * Z.pos qd) * 1)%Z eqn:E;
    try reflexivity; lia.
Qed.

Lemma number_lt_asym (x y : number) : number_lt x y = true → number_lt y x = false.
Proof.
  destruct x as [p| | |], y as [q| | |]; simpl; try congruence.
  rewrite <- (Qcompare_antisym p q).
  destruct (p ?= q)%Q; simpl; congruence.
Qed.

Lemma number_lt_Finite (p q : Q) : number_lt (Finite p) (Finite q) = true ↔ (p < q)%Q.
Proof.
  simpl. rewrite Qlt_alt. destruct (p ?= q)%Q; split; congruence.
Qed.

Lemma number_lt_Finite_false (p q : Q) :
  number_lt (Finite p) (Finite q) = false ↔ (q <= p)%Q.
Proof.
  rewrite <- not_true_iff_false, number_lt_Finite. split.
  - apply Qnot_lt_le.
  - apply Qle_not_lt.
Qed.

(** ** Sorting *)

Lemma comes_before_split {A : Type} (l : list A) (a b : A) :
  comes_before l a b ↔ ∃ l1 l2 l3, l = l1 ++ a :: l2 ++ b :: l3.
Proof.
  induction l as [|x r IH]; simpl.
  - split; [tauto|]. intros (l1 & l2 & l3 & E). destruct l1; discriminate.
  - rewrite IH. split.
    + intros [[-> Hb] | (l1 & l2 & l3 & ->)].
      * apply in_split in Hb as (l2 & l3 & ->). by exists [], l2, l3.
      * by exists (x :: l1), l2, l3.
    + intros (l1 & l2 & l3 & E). destruct l1 as [|y l1]; simpl in E.
      * injection E as -> ->. left. split; [done|].
        apply in_or_app. right. by left.
      * injection E as -> ->. right. by exists l1, l2, l3.
Qed.

Lemma comes_before_In {A : Type} (l : list A) (a b : A) : comes_before l a b → In a l ∧ In b l.
Proof.
  induction l as [|x r IH]; simpl; [tauto|].
  intros [[-> Hb] | Hr]; [tauto|]. apply IH in Hr. tauto.
Qed.

Lemma In_firstn_inv {A : Type} (n : nat) (l : list A) (x : A) :
  In x (firstn n l) → In x l.
Proof.
  revert n. induction l as [|y r IH]; intros [|n]; simpl; try tauto.
  intros [-> | Hx]; [tauto|]. right. by apply (IH n).
Qed.

Lemma comes_before_firstn {A : Type} (n : nat) (l : list A) (a b : A) :
  comes_before (firstn n l) a b → comes_before l a b.
Proof.
  revert n. induction l as [|x r IH]; intros [|n]; simpl; try tauto.
  intros [[-> Hb] | Hr].
  - left. split; [done|]. apply (In_firstn_inv n), Hb.
  - right. by apply (IH n).
Qed.

Section ArraySortFacts.
Context {A : Type} (comparefn : A → A → number).

#[local] Abbreviation insert_ := (sort_insert comparefn).
#[local] Abbreviation sort_ := (Array_sort comparefn).
#[local] Abbreviation after_ := (sorts_after comparefn).

Lemma sort_insert_Permutation (x : A) (l : list A) : Permutation (insert_ x l) (x :: l).
Proof.
  induction l as [|y r IH]; simpl; [done|].
  destruct (after_ x y); [|done].
  rewrite IH. apply perm_swap.
Qed.

Lemma Array_sort_Permutation (l : list A) : Permutation (sort_ l) l.
Proof.
  induction l as [|x r IH]; simpl; [done|].
  rewrite sort_insert_Permutation. by constructor.
Qed.

Lemma Array_sort_In (l : list A) (x : A) : In x (sort_ l) ↔ In x l.
Proof.
  split; apply Permutation_in;
    [apply Array_sort_Permutation | symmetry; apply Array_sort_Permutation].
Qed.

Lemma Array_sort_length (l : list A) : length (sort_ l) = length l.
Proof. apply Permutation_length, Array_sort_Permutation. Qed.

(** Where an inserted element lands relative to two others. *)
Lemma comes_before_sort_insert (x : A) (l : list A) (a b : A) :
  comes_before (insert_ x l) a b →
  (a = x ∧ In b l) ∨ (b = x ∧ In a l ∧ after_ x a = true) ∨ comes_before l a b.
Proof.
  induction l as [|y r IH]; simpl.
  - intros [[-> []] | []].
  - destruct (after_ x y) eqn:Hxy; simpl.
    + intros [[-> Hb] | Hr].
      * apply (Permutation_in _ (sort_insert_Permutation x r)) in Hb as [<- | Hb].
        -- right; left. tauto.
        -- right; right. tauto.
      * apply IH in Hr as [[-> Hb] | [(-> & Ha & Hx) | Hr]]; tauto.
    + intros [[-> Hb] | Hr]; tauto.
Qed.

(** Stability: two elements leave the sort in the order they entered
    it unless the comparator puts the first after the second. *)
Lemma Array_sort_stable (l : list A) (a b : A) :
  comes_before (sort_ l) a b → after_ b a = false → comes_before l a b.
Proof.
  intros Hab Htie. induction l as [|x r IH]; simpl in *; [done|].
  apply comes_before_sort_insert in Hab as [[-> Hb] | [(-> & Ha & Hx) | Hr]].
  - left. split; [done|]. by apply Array_sort_In.
  - congruence.
  - right. by apply IH.
Qed.

(** The result is ordered whenever the comparator is a consistent
    ordering of the elements, all of which satisfy [I]. *)
Section Ordered.
Context (I : A → Prop).
Hypothesis after_asym : ∀ x y, I x → I y → after_ x y = true → after_ y x = false.
Hypothesis after_trans : ∀ x y z, I x → I y → I z →
  after_ x y = false → after_ y z = false → after_ x z = false.

Lemma sort_insert_sorted (x : A) (l : list A) :
  I x → Forall I l →
  StronglySorted (λ a b, after_ a b = false) l →
  StronglySorted (λ a b, after_ a b = false) (insert_ x l).
Proof.
  intros Hx Hl Hs. induction Hs as [|y r Hs IH Hy]; simpl.
  - repeat constructor.
  - apply Forall_cons_1 in Hl as [HIy HIr].
    destruct (after_ x y) eqn:Hxy.
    + constructor; [by apply IH|].
      apply List.Forall_forall. intros z Hz.
      apply (Permutation_in _ (sort_insert_Permutation x r)) in Hz as [<- | Hz].
      * by apply after_asym.
      * revert z Hz. by apply List.Forall_forall.
    + constructor; [by constructor|].
      constructor; [done|].
      apply List.Forall_forall. intros z Hz.
      apply (after_trans x y z); try done.
      * revert z Hz. by apply List.Forall_forall.
      * revert z Hz. by apply List.Forall_forall.
Qed.

Lemma Array_sort_sorted (l : list A) :
  Forall I l → StronglySorted (λ a b, after_ a b = false) (sort_ l).
Proof.
  induction 1 as [|x r Hx Hr IH]; simpl; [constructor|].
  apply sort_insert_sorted; [done| |done].
  apply List.Forall_forall. intros z Hz.
  apply (proj1 (Array_sort_In r z)) in Hz.
  by apply (proj1 (List.Forall_forall I r) Hr).
Qed.
End Ordered.

(** When no element has to follow another, nothing moves. *)
Lemma Array_sort_all_tied (l : list A) :
  (∀ x y, In x l → In y l → after_ x y = false) → sort_ l = l.
Proof.
  induction l as [|x r IH]; simpl; intros Htie; [done|].
  rewrite IH by (intros; apply Htie; tauto).
  destruct r as [|y r]; simpl; [done|].
  rewrite Htie; [done| |]; simpl; tauto.
Qed.
End ArraySortFacts.

Lemma StronglySorted_impl {A : Type} (R S : A → A → Prop) (l : list A) :
  (∀ a b, R a b → S a b) → StronglySorted R l → StronglySorted S l.
Proof.
  intros HRS Hs. induction Hs as [|x r Hs IH Hx]; constructor; [done|].
  apply List.Forall_forall. intros z Hz. apply HRS.
  by apply (proj1 (List.Forall_forall _ r) Hx).
Qed.

Lemma StronglySorted_firstn {A : Type} (R : A → A → Prop) (n : nat) (l : list A) :
  StronglySorted R l → StronglySorted R (firstn n l).
Proof.
  intros Hs. revert n. induction Hs as [|x r Hs IH Hx]; intros [|n]; simpl;
    try constructor; [apply IH|].
  apply List.Forall_forall. intros z Hz. apply In_firstn_inv in Hz.
  revert z Hz. by apply List.Forall_forall.
Qed.

(** ** The store *)

Lemma Map_get_set_eq {V} (k : string) (v : V) (m : JSMap V) :
  Map_get k (Map_set k v m) = Some v.
Proof.
  unfold Map_get. induction m as [|[k' v'] r IH]; simpl.
  - by rewrite String.eqb_refl.
  - destruct (String.eqb k' k) eqn:E; simpl.
    + by rewrite String.eqb_refl.
    + by rewrite E.
Qed.

Lemma Map_get_set_ne {V} (k k' : string) (v : V) (m : JSMap V) :
  k ≠ k' → Map_get k' (Map_set k v m) = Map_get k' m.
Proof.
  intros Hne. unfold Map_get. induction m as [|[k0 v0] r IH]; simpl.
  - by rewrite (proj2 (String.eqb_neq k k')).
  - destruct (String.eqb k0 k) eqn:E; simpl.
    + apply String.eqb_eq in E as ->.
      by rewrite (proj2 (String.eqb_neq k k')).
    + by destruct (String.eqb k0 k').
Qed.

Lemma Map_get_delete_eq {V} (k : string) (m : JSMap V) :
  Map_get k (Map_delete k m) = None.
Proof.
  unfold Map_get, Map_delete. induction m as [|[k' v'] r IH]; simpl; [done|].
  destruct (String.eqb k' k) eqn:E; simpl; [done|]. by rewrite E.
Qed.

Lemma Map_get_delete_ne {V} (k k' : string) (m : JSMap V) :
  k ≠ k' → Map_get k' (Map_delete k m) = Map_get k' m.
Proof.
  intros Hne. unfold Map_get, Map_delete.
  induction m as [|[k0 v0] r IH]; simpl; [done|].
  destruct (String.eqb k0 k) eqn:E; simpl.
  - apply String.eqb_eq in E as ->.
    by rewrite (proj2 (String.eqb_neq k k')).
  - by destruct (String.eqb k0 k').
Qed.

Lemma Map_get_In {V} (k : string) (v : V) (m : JSMap V) :
  Map_get k m = Some v → In (k, v) m.
Proof.
  unfold Map_get. induction m as [|[k' v'] r IH]; simpl; [done|].
  destruct (String.eqb k' k) eqn:E; simpl.
  - apply String.eqb_eq in E as ->. intros [= ->]. by left.
  - intros Hr. right. by apply IH.
Qed.

Lemma Map_set_keys {V} (k : string) (v : V) (m : JSMap V) (k' : string) :
  In k' (Map_keys (Map_set k v m)) ↔ k' = k ∨ In k' (Map_keys m).
Proof.
  induction m as [|[k0 v0] r IH]; simpl.
  - intuition congruence.
  - destruct (String.eqb k0 k) eqn:E; simpl.
    + apply String.eqb_eq in E as ->. intuition congruence.
    + rewrite IH. intuition congruence.
Qed.

(** [set] and [delete] keep the keys pairwise distinct. *)
Lemma Map_set_NoDup {V} (k : string) (v : V) (m : JSMap V) :
  List.NoDup (Map_keys m) → List.NoDup (Map_keys (Map_set k v m)).
Proof.
  induction m as [|[k0 v0] r IH]; simpl; intros Hm.
  - repeat constructor. intros [].
  - apply List.NoDup_cons_iff in Hm as [Hk0 Hr].
    destruct (String.eqb k0 k) eqn:E; simpl.
    + apply String.eqb_eq in E as ->. by constructor.
    + constructor; [|by apply IH].
      rewrite (Map_set_keys k v r k0). intros [-> | Hin]; [|done].
      by rewrite String.eqb_refl in E.
Qed.

Lemma Map_delete_NoDup {V} (k : string) (m : JSMap V) :
  List.NoDup (Map_keys m) → List.NoDup (Map_keys (Map_delete k m)).
Proof.
  unfold Map_delete. induction m as [|[k0 v0] r IH]; simpl; intros Hm; [done|].
  apply List.NoDup_cons_iff in Hm as [Hk0 Hr].
  destruct (String.eqb k0 k); simpl; [by apply IH|].
  constructor; [|by apply IH].
  intros Hin. apply Hk0. unfold Map_keys in *.
  apply in_map_iff in Hin as ([k1 v1] & <- & Hin).
  apply filter_In in Hin as [Hin _].
  apply in_map_iff. by exists (k1, v1).
Qed.

(** ** Token sets and similarity *)

Lemma filter_has_intersection (X Y : gset string) : filter (λ x, x ∈ Y) X = X ∩ Y.
Proof.
  apply set_eq. intros x. rewrite elem_of_filter, elem_of_intersection. tauto.
Qed.

Lemma spread_union (X Y : gset string) : list_to_set (elements X ++ elements Y) = X ∪ Y.
Proof. by rewrite list_to_set_app_L, !list_to_set_elements_L. Qed.

Lemma size_nonzero (X : gset string) : X ≠ ∅ → size X ≠ 0.
Proof. intros Hne E. apply Hne, leibniz_equiv. by apply size_empty_inv. Qed.

Lemma calculateSimilarity_tokens (doc1 doc2 : Document) (tokens1 tokens2 : list string) :
  doc_tokens doc1 = Some tokens1 → doc_tokens doc2 = Some tokens2 →
  calculateSimilarity doc1 doc2
  = size_div (size (token_set doc1 ∩ token_set doc2))
             (size (token_set doc1 ∪ token_set doc2)).
Proof.
  intros H1 H2. unfold calculateSimilarity, token_set. rewrite H1, H2.
  by rewrite filter_has_intersection, spread_union.
Qed.

Lemma Z_pos_of_nat (n : nat) : n ≠ 0 → Z.pos (Pos.of_nat n) = Z.of_nat n.
Proof. intros Hn. rewrite <- (Nat2Pos.id n Hn) at 2. by rewrite positive_nat_Z. Qed.

Lemma size_div_Finite (a b : nat) :
  b ≠ 0 → size_div a b = Finite (Qred (Z.of_nat a # Pos.of_nat b)).
Proof. by destruct b. Qed.

Lemma size_div_zero (b : nat) : b ≠ 0 → size_div 0 b = Finite 0.
Proof.
  intros Hb. by rewrite size_div_Finite.
Qed.

Lemma size_div_same (n : nat) : n ≠ 0 → size_div n n = Finite 1.
Proof.
  intros Hn. rewrite size_div_Finite by done. f_equal.
  rewrite (Qred_complete (Z.of_nat n # Pos.of_nat n) 1); [done|].
  unfold Qeq; simpl. rewrite Z_pos_of_nat by done. lia.
Qed.

Lemma size_div_unit (a b : nat) : (a ≤ b)%nat → b ≠ 0 → in_unit_interval (size_div a b).
Proof.
  intros Hab Hb. rewrite size_div_Finite by done. simpl.
  rewrite Qred_correct. unfold Qle; simpl. rewrite Z_pos_of_nat by done. lia.
Qed.

(** Whenever at least one of the two documents has a token, the result
    is the Jaccard index of the token sets, a value of [[0,1]]. *)
Lemma calculateSimilarity_jaccard (doc1 doc2 : Document) :
  token_set doc1 ∪ token_set doc2 ≠ ∅ →
  calculateSimilarity doc1 doc2 = Finite (jaccard (token_set doc1) (token_set doc2))
  ∧ in_unit_interval (calculateSimilarity doc1 doc2).
Proof.
  intros Hne.
  assert (Hu : size (token_set doc1 ∪ token_set doc2) ≠ 0).
  { by apply size_nonzero. }
  assert (Hle : (size (token_set doc1 ∩ token_set doc2)
                 ≤ size (token_set doc1 ∪ token_set doc2))%nat).
  { apply subseteq_size. etrans; [apply intersection_subseteq_l|].
    apply union_subseteq_l. }
  destruct (doc_tokens doc1) as [tokens1|] eqn:H1;
    [destruct (doc_tokens doc2) as [tokens2|] eqn:H2|].
  - rewrite (calculateSimilarity_tokens _ _ _ _ H1 H2).
    split; [by apply size_div_Finite | by apply size_div_unit].
  - unfold calculateSimilarity. rewrite H1, H2. unfold jaccard.
    replace (token_set doc2) with (∅ : gset string) by (unfold token_set; by rewrite H2).
    rewrite (right_absorb_L ∅ (∩)), size_empty.
    split; [done|]. simpl; unfold Qle; simpl; lia.
  - unfold calculateSimilarity. rewrite H1. unfold jaccard.
    replace (token_set doc1) with (∅ : gset string) by (unfold token_set; by rewrite H1).
    rewrite (left_absorb_L ∅ (∩)), size_empty.
    split; [done|]. simpl; unfold Qle; simpl; lia.
Qed.

(** With one token set empty and the other not, the result is [0]. *)
Lemma calculateSimilarity_one_empty (doc1 doc2 : Document) :
  token_set doc1 ∪ token_set doc2 ≠ ∅ →
  token_set doc1 = ∅ ∨ token_set doc2 = ∅ →
  calculateSimilarity doc1 doc2 = Finite 0.
Proof.
  intros Hne Hempty.
  destruct (calculateSimilarity_jaccard doc1 doc2 Hne) as [-> _].
  f_equal. unfold jaccard.
  replace (token_set doc1 ∩ token_set doc2) with (∅ : gset string).
  - by rewrite size_empty.
  - destruct Hempty as [-> | ->]; symmetry.
    + apply (left_absorb_L ∅ (∩)).
    + apply (right_absorb_L ∅ (∩)).
Qed.

(** The scenario of the specification: token sets [{alpha, beta}] and
    [{alpha, gamma}] have similarity [1/3]. *)
Example calculateSimilarity_alpha_beta_gamma :
  calculateSimilarity (Sample.doc "a.md" ["alpha"; "beta"] 0)
                      (Sample.doc "b.md" ["alpha"; "gamma"] 0)
  = Finite (1 # 3).
Proof. vm_compute. reflexivity. Qed.

(** C6, at the input on which the code leaves the claim: two documents
    whose token arrays are both empty (the arrays are truthy, so the
    guard on missing tokens lets them through) have similarity [0 / 0],
    which is [NaN] and no value of [[0,1]]; the claim has [0] there. *)
Theorem calculateSimilarity_both_empty :
  doc_tokens (Sample.doc "a.md" [] 0) = Some []
  ∧ doc_tokens (Sample.doc "b.md" [] 0) = Some []
  ∧ calculateSimilarity (Sample.doc "a.md" [] 0) (Sample.doc "b.md" [] 0) = NaN
  ∧ NaN ≠ Finite 0
  ∧ ¬ in_unit_interval
        (calculateSimilarity (Sample.doc "a.md" [] 0) (Sample.doc "b.md" [] 0)).
Proof.
  assert (E : calculateSimilarity (Sample.doc "a.md" [] 0) (Sample.doc "b.md" [] 0) = NaN)
    by (vm_compute; reflexivity).
  rewrite E. repeat split; try done. intros [].
Qed.

(** C9: a document with a token has similarity [1] to itself, and the
    similarity of two documents does not depend on their order. *)
Theorem calculateSimilarity_self_and_symmetric :
  (∀ a : Document, token_set a ≠ ∅ → calculateSimilarity a a = Finite 1)
  ∧ (∀ a b : Document, calculateSimilarity a b = calculateSimilarity b a).
Proof.
  split.
  - intros a Hne. unfold token_set in Hne.
    destruct (doc_tokens a) as [tokens|] eqn:Ha; [|done].
    rewrite (calculateSimilarity_tokens _ _ _ _ Ha Ha).
    unfold token_set. rewrite Ha.
    rewrite (idemp_L (∩)), (idemp_L (∪)).
    apply size_div_same. by apply size_nonzero.
  - intros a b.
    destruct (doc_tokens a) as [ta|] eqn:Ha, (doc_tokens b) as [tb|] eqn:Hb.
    + rewrite (calculateSimilarity_tokens _ _ _ _ Ha Hb),
        (calculateSimilarity_tokens _ _ _ _ Hb Ha).
      by rewrite (comm_L (∩) (token_set a) (token_set b)),
        (comm_L (∪) (token_set a) (token_set b)).
    + unfold calculateSimilarity. by rewrite Ha, Hb.
    + unfold calculateSimilarity. by rewrite Ha, Hb.
    + unfold calculateSimilarity. by rewrite Ha, Hb.
Qed.

Lemma calculateSimilarity_self_and_symmetric_witness :
  token_set (Sample.doc "a.md" ["alpha"; "beta"] 0) ≠ ∅
  ∧ calculateSimilarity (Sample.doc "a.md" ["alpha"; "beta"] 0)
                        (Sample.doc "a.md" ["alpha"; "beta"] 0) = Finite 1.
Proof.
  assert (Hne : token_set (Sample.doc "a.md" ["alpha"; "beta"] 0) ≠ ∅).
  { intros E. apply (f_equal size) in E. vm_compute in E. discriminate. }
  split; [exact Hne|].
  exact (proj1 calculateSimilarity_self_and_symmetric _ Hne).
Defined.

(** ** [findSimilarDocuments] *)

Lemma In_similarity_scores (targetDoc : Document) (id : string)
    (entries : JSMap Document) (e : ScoreEntry) :
  In e (similarity_scores targetDoc id entries) →
  se_id e ≠ id
  ∧ ∃ doc, In (se_id e, doc) entries
           ∧ se_score e = calculateSimilarity targetDoc doc
           ∧ se_title e = doc_title doc.
Proof.
  induction entries as [|[docId doc] rest IH]; simpl; [done|].
  destruct (String.eqb docId id) eqn:E.
  - intros He. destruct (IH He) as (Hid & d & Hd & Hs). eauto 6.
  - apply String.eqb_neq in E. intros [<- | He]; simpl.
    + split; [done|]. exists doc. auto.
    + destruct (IH He) as (Hid & d & Hd & Hs). eauto 6.
Qed.

(** The loop keeps the iteration order of the store. *)
Lemma comes_before_similarity_scores (targetDoc : Document) (id : string)
    (entries : JSMap Document) (a b : ScoreEntry) :
  comes_before (similarity_scores targetDoc id entries) a b →
  ∃ da db, comes_before entries (se_id a, da) (se_id b, db).
Proof.
  induction entries as [|[docId doc] rest IH]; simpl; [done|].
  destruct (String.eqb docId id).
  - intros Hab. destruct (IH Hab) as (da & db & H). eauto.
  - simpl. intros [[<- Hb] | Hab].
    + apply In_similarity_scores in Hb as (_ & db & Hb & _).
      exists doc, db. simpl. auto.
    + destruct (IH Hab) as (da & db & H). eauto.
Qed.

Lemma calculateSimilarity_target (targetDoc doc : Document) :
  (token_set targetDoc ≠ ∅ → ∃ q, calculateSimilarity targetDoc doc = Finite q)
  ∧ (token_set targetDoc = ∅ →
     calculateSimilarity targetDoc doc = Finite 0
     ∨ calculateSimilarity targetDoc doc = NaN).
Proof.
  split.
  - intros Hne.
    destruct (calculateSimilarity_jaccard targetDoc doc) as [-> _]; [|eauto].
    intros E. apply Hne. apply (proj1 (empty_union_L _ _) E).
  - intros Hempty. unfold calculateSimilarity.
    destruct (doc_tokens targetDoc) as [t1|] eqn:H1; [|by left].
    destruct (doc_tokens doc) as [t2|] eqn:H2; [|by left].
    rewrite filter_has_intersection, spread_union.
    replace (list_to_set t1 : gset string) with (∅ : gset string)
      by (unfold token_set in Hempty; by rewrite H1 in Hempty).
    rewrite (left_absorb_L ∅ (∩)), size_empty.
    destruct (size (∅ ∪ list_to_set t2 : gset string)); [by right | by left].
Qed.

(** The scores of one call are all finite when the target has a token;
    otherwise each of them is [0] or [NaN] and no entry has to follow
    another.  The comparator of the sort is a consistent ordering of
    them in both cases. *)
Lemma similarity_scores_consistent (targetDoc : Document) (id : string)
    (entries : JSMap Document) :
  Forall finite_score (similarity_scores targetDoc id entries)
  ∨ Forall null_score (similarity_scores targetDoc id entries).
Proof.
  destruct (decide (token_set targetDoc = ∅)) as [Hempty | Hne]; [right | left];
    apply List.Forall_forall; intros e He;
    apply In_similarity_scores in He as (_ & doc & _ & Hs & _);
    unfold finite_score, null_score; rewrite Hs;
    by apply calculateSimilarity_target.
Qed.

Lemma sorts_after_by_score (a b : ScoreEntry) :
  sorts_after by_score_descending a b = number_lt (se_score a) (se_score b).
Proof. apply number_sub_positive. Qed.

Lemma Array_sort_by_score_sorted (scores : list ScoreEntry) :
  Forall finite_score scores ∨ Forall null_score scores →
  StronglySorted (λ a b, number_lt (se_score a) (se_score b) = false)
                 (Array_sort by_score_descending scores).
Proof.
  intros Hc.
  apply (StronglySorted_impl (λ a b, sorts_after by_score_descending a b = false));
    [intros a b; by rewrite sorts_after_by_score|].
  destruct Hc as [Hfin | Hnull].
  - apply (Array_sort_sorted _ finite_score); [| |done].
    + intros x y _ _. rewrite !sorts_after_by_score. apply number_lt_asym.
    + intros x y z [p Hp] [q Hq] [r Hr]. rewrite !sorts_after_by_score, Hp, Hq, Hr.
      rewrite !number_lt_Finite_false. intros Hqp Hrq. by apply (Qle_trans _ q).
  - apply (Array_sort_sorted _ null_score); [| |done].
    + intros x y _ _. rewrite !sorts_after_by_score. apply number_lt_asym.
    + intros x y z [Hx | Hx] _ [Hz | Hz] _ _;
        by rewrite sorts_after_by_score, Hx, Hz.
Qed.

(** C7: for a stored target and a positive [limit], [findSimilarDocuments]
    returns entries of other documents only, at most [limit] of them,
    in descending order of score (no entry is followed by one with a
    strictly greater score), and of two entries the earlier one has the
    strictly greater score or comes first in the iteration order of the
    store.  Each entry carries the similarity of its document to the
    target, the list is as long as [limit] and the store allow, and
    when the target has a token every score is a value of [[0,1]]. *)
Theorem findSimilarDocuments_ranked (s : Server) (id : string)
    (targetDoc : Document) (limit : Z) :
  Map_get id (documents s) = Some targetDoc →
  (0 < limit)%Z →
  ∃ topResults,
    findSimilarDocuments s id limit = SimilarDocuments topResults
    ∧ (∀ e, In e topResults → se_id e ≠ id)
    ∧ (Z.of_nat (length topResults) ≤ limit)%Z
    ∧ StronglySorted (λ a b, number_lt (se_score a) (se_score b) = false) topResults
    ∧ (∀ a b, comes_before topResults a b →
         number_lt (se_score b) (se_score a) = true
         ∨ ∃ da db, comes_before (documents s) (se_id a, da) (se_id b, db))
    ∧ (∀ e, In e topResults →
         ∃ doc, In (se_id e, doc) (documents s)
                ∧ se_score e = calculateSimilarity targetDoc doc)
    ∧ length topResults
      = Nat.min (Z.to_nat limit) (length (similarity_scores targetDoc id (documents s)))
    ∧ (token_set targetDoc ≠ ∅ →
       ∀ e, In e topResults → in_unit_interval (se_score e)).
Proof.
  intros Hget Hlimit. unfold findSimilarDocuments. rewrite Hget.
  set (scores := similarity_scores targetDoc id (documents s)).
  assert (Hslice : Array_slice0 limit (Array_sort by_score_descending scores)
                   = firstn (Z.to_nat limit) (Array_sort by_score_descending scores)).
  { unfold Array_slice0. destruct (Z.ltb_spec limit 0); [lia | done]. }
  rewrite Hslice. eexists. split; [reflexivity|].
  assert (Hin : ∀ e, In e (firstn (Z.to_nat limit) (Array_sort by_score_descending scores))
                     → In e scores).
  { intros e He. apply In_firstn_inv in He.
    by apply (proj1 (Array_sort_In _ _ _)) in He. }
  repeat split.
  - intros e He. by destruct (In_similarity_scores _ _ _ _ (Hin e He)).
  - rewrite length_firstn. lia.
  - apply StronglySorted_firstn, Array_sort_by_score_sorted,
      similarity_scores_consistent.
  - intros a b Hab.
    destruct (number_lt (se_score b) (se_score a)) eqn:Hlt; [by left | right].
    apply comes_before_firstn, Array_sort_stable in Hab;
      [|by rewrite sorts_after_by_score].
    by apply comes_before_similarity_scores in Hab.
  - intros e He.
    destruct (In_similarity_scores _ _ _ _ (Hin e He)) as (_ & doc & Hd & Hs & _).
    eauto.
  - by rewrite length_firstn, Array_sort_length.
  - intros Hne e He.
    destruct (In_similarity_scores _ _ _ _ (Hin e He)) as (_ & doc & _ & -> & _).
    apply calculateSimilarity_jaccard.
    intros E. apply Hne. apply (proj1 (empty_union_L _ _) E).
Qed.

Lemma findSimilarDocuments_ranked_witness :
  ∃ topResults,
    findSimilarDocuments Sample.library "a.md" 3 = SimilarDocuments topResults
    ∧ (∀ e, In e topResults → se_id e ≠ "a.md")
    ∧ (Z.of_nat (length topResults) ≤ 3)%Z
    ∧ StronglySorted (λ a b, number_lt (se_score a) (se_score b) = false) topResults
    ∧ (∀ a b, comes_before topResults a b →
         number_lt (se_score b) (se_score a) = true
         ∨ ∃ da db, comes_before (documents Sample.library) (se_id a, da) (se_id b, db))
    ∧ (∀ e, In e topResults →
         ∃ doc, In (se_id e, doc) (documents Sample.library)
                ∧ se_score e = calculateSimilarity (Sample.doc "a.md" ["x"; "y"] 1) doc)
    ∧ length topResults
      = Nat.min (Z.to_nat 3)
          (length (similarity_scores (Sample.doc "a.md" ["x"; "y"] 1) "a.md"
                     (documents Sample.library)))
    ∧ (token_set (Sample.doc "a.md" ["x"; "y"] 1) ≠ ∅ →
       ∀ e, In e topResults → in_unit_interval (se_score e)).
Proof.
  exact (findSimilarDocuments_ranked Sample.library "a.md"
           (Sample.doc "a.md" ["x"; "y"] 1) 3 eq_refl eq_refl).
Defined.

(** The ranking of that store: [b.md] and [d.md] tie and keep the order
    of the store. *)
Example findSimilarDocuments_library :
  findSimilarDocuments Sample.library "a.md" 3
  = SimilarDocuments
      [ {| se_id := "c.md"; se_score := Finite (2 # 3); se_title := "c.md" |};
        {| se_id := "b.md"; se_score := Finite (1 # 2); se_title := "b.md" |};
        {| se_id := "d.md"; se_score := Finite (1 # 2); se_title := "d.md" |} ].
Proof. vm_compute. reflexivity. Qed.

(** ** [searchByDate] *)

Lemma sorts_after_by_lastModified (a b : Document) :
  sorts_after by_lastModified_descending a b
  = (doc_lastModified a <? doc_lastModified b)%Z.
Proof.
  unfold sorts_after, by_lastModified_descending. rewrite number_sub_positive.
  unfold number_lt, number_of_Z, Qcompare, inject_Z; simpl.
  rewrite !Z.mul_1_r. unfold Z.ltb.
  by destruct (doc_lastModified a ?= doc_lastModified b)%Z.
Qed.

Lemma Array_sort_by_lastModified_sorted (docs : list Document) :
  StronglySorted (λ a b, (doc_lastModified b ≤ doc_lastModified a)%Z)
                 (Array_sort by_lastModified_descending docs).
Proof.
  apply (StronglySorted_impl
           (λ a b, sorts_after by_lastModified_descending a b = false)).
  { intros a b. rewrite sorts_after_by_lastModified. lia. }
  apply (Array_sort_sorted _ (λ _, True)).
  - intros x y _ _. rewrite !sorts_after_by_lastModified. lia.
  - intros x y z _ _ _. rewrite !sorts_after_by_lastModified. lia.
  - by apply List.Forall_forall.
Qed.

Lemma filter_filter_andb {A : Type} (f g : A → bool) (l : list A) :
  List.filter g (List.filter f l) = List.filter (λ x, f x && g x) l.
Proof.
  induction l as [|x r IH]; simpl; [done|].
  destruct (f x); simpl; [|done]. destruct (g x); by rewrite IH.
Qed.

Lemma filter_all {A : Type} (f : A → bool) (l : list A) :
  (∀ x, f x = true) → List.filter f l = l.
Proof. intros Hf. induction l as [|x r IH]; simpl; [done|]. by rewrite Hf, IH. Qed.

Lemma filter_none {A : Type} (f : A → bool) (l : list A) :
  (∀ x, f x = false) → List.filter f l = [].
Proof. intros Hf. induction l as [|x r IH]; simpl; [done|]. by rewrite Hf. Qed.

Lemma comes_before_filter {A : Type} (f : A → bool) (l : list A) (a b : A) :
  comes_before (List.filter f l) a b → comes_before l a b.
Proof.
  induction l as [|x r IH]; simpl; [done|].
  destruct (f x); simpl; [|tauto].
  intros [[-> Hb] | Hr]; [|tauto].
  left. split; [done|]. by apply filter_In in Hb as [Hb _].
Qed.

Section SearchByDate.
Context `{Externals}.

(** With well-formed bounds the two filters keep the documents strictly
    between the bounds; the sort follows. *)
Lemma searchByDate_docs_between (s : Server) (after before : option string) :
  well_formed_bound after → well_formed_bound before →
  searchByDate_docs s after before
  = Array_sort by_lastModified_descending
      (List.filter
         (λ doc, strictly_between (bound_time after) (bound_time before)
                                  (doc_lastModified doc))
         (Map_values (documents s))).
Proof.
  intros Ha Hb. unfold searchByDate_docs. f_equal.
  destruct after as [a|], before as [b|]; simpl in *.
  - destruct Ha as [-> [ta Hta]], Hb as [-> [tb Htb]].
    rewrite Hta, Htb, filter_filter_andb. by apply filter_ext.
  - destruct Ha as [-> [ta Hta]].
    rewrite Hta. apply filter_ext. intros d.
    unfold strictly_between. by rewrite andb_true_r.
  - destruct Hb as [-> [tb Htb]].
    rewrite Htb. by apply filter_ext.
  - symmetry. by apply filter_all.
Qed.

(** C8: with well-formed bounds [searchByDate] returns exactly the
    documents of the store whose [lastModified] is strictly greater than
    [after] and strictly less than [before], whichever is given, sorted
    descending by [lastModified] (documents with the same time keep the
    order of the store); with equal bounds the list is empty. *)
Theorem searchByDate_between (s : Server) (after before : option string) :
  well_formed_bound after → well_formed_bound before →
  ∃ docs,
    searchByDate s after before = DateResults (map date_entry docs)
    ∧ Permutation docs
        (List.filter
           (λ doc, strictly_between (bound_time after) (bound_time before)
                                    (doc_lastModified doc))
           (Map_values (documents s)))
    ∧ StronglySorted (λ a b, (doc_lastModified b ≤ doc_lastModified a)%Z) docs
    ∧ (∀ a b, comes_before docs a b →
         (doc_lastModified b < doc_lastModified a)%Z
         ∨ comes_before (Map_values (documents s)) a b)
    ∧ (after = before → after ≠ None → searchByDate s after before = DateResults []).
Proof.
  intros Ha Hb. exists (searchByDate_docs s after before).
  split; [reflexivity|]. unfold searchByDate.
  rewrite (searchByDate_docs_between s after before Ha Hb).
  repeat split.
  - apply Array_sort_Permutation.
  - apply Array_sort_by_lastModified_sorted.
  - intros a b Hab.
    destruct (Z.ltb_spec (doc_lastModified b) (doc_lastModified a)); [by left | right].
    apply Array_sort_stable in Hab.
    + by apply comes_before_filter in Hab.
    + rewrite sorts_after_by_lastModified. lia.
  - intros <- Hsome. destruct after as [a|]; [|done].
    destruct Ha as [_ [t Ht]]. rewrite filter_none; [done|].
    intros d. simpl. rewrite Ht. unfold strictly_between.
    destruct (Z.ltb_spec t (doc_lastModified d)),
      (Z.ltb_spec (doc_lastModified d) t); simpl; try done; lia.
Qed.

(** C10, as the code has it: a call of [search_by_date] has neither
    bound when its arguments object names none, and when the request has
    no arguments object at all.  With an arguments object and neither
    bound, [searchByDate] returns every document of the store, sorted
    descending by [lastModified] with the order of the store kept among
    equal dates, and the tool call returns that list.  Without an
    arguments object the handler throws [No arguments provided] before
    it looks at the tool, whatever the store holds. *)
Theorem searchByDate_unbounded (s : Server) :
  (∃ docs,
     searchByDate s None None = DateResults (map date_entry docs)
     ∧ callTool s (WithArguments (search_by_date None None))
       = Return (DateResults (map date_entry docs))
     ∧ Permutation docs (Map_values (documents s))
     ∧ StronglySorted (λ a b, (doc_lastModified b ≤ doc_lastModified a)%Z) docs
     ∧ (∀ a b, comes_before docs a b →
          (doc_lastModified b < doc_lastModified a)%Z
          ∨ comes_before (Map_values (documents s)) a b))
  ∧ callTool s (NoArguments "search_by_date") = Throw "No arguments provided"
  ∧ is_error_reply (callTool s (NoArguments "search_by_date")) = true.
Proof.
  split; [|done].
  exists (searchByDate_docs s None None).
  repeat split.
  - apply Array_sort_Permutation.
  - apply Array_sort_by_lastModified_sorted.
  - intros a b Hab.
    destruct (Z.ltb_spec (doc_lastModified b) (doc_lastModified a)); [by left | right].
    apply Array_sort_stable in Hab; [done|].
    rewrite sorts_after_by_lastModified. lia.
Qed.

(** C4, as the code has it: a bound that is a non-empty string and does
    not parse is compared as an invalid date, so no document passes the
    filter; the call returns an ordinary, empty list and reports no
    error.  An empty string is not parsed at all: it counts as absent. *)
Theorem searchByDate_unparseable (s : Server) (after before : option string) :
  (unparseable_bound after ∨ unparseable_bound before →
   callTool s (WithArguments (search_by_date after before)) = Return (DateResults [])
   ∧ is_error_reply (callTool s (WithArguments (search_by_date after before))) = false)
  ∧ searchByDate s (Some "") before = searchByDate s None before
  ∧ searchByDate s after (Some "") = searchByDate s after None.
Proof.
  split; [|done].
  intros Hbad.
  assert (E : searchByDate_docs s after before = []).
  { unfold searchByDate_docs. destruct Hbad as [Hbad | Hbad].
    - destruct after as [a|]; [|done]. destruct Hbad as [-> ->].
      rewrite (filter_none (λ doc, Date_gt (Some (doc_lastModified doc)) None)) by done.
      by destruct before as [b|]; [destruct (String_truthy b)|].
    - destruct before as [b|]; [|done]. destruct Hbad as [-> ->].
      by rewrite (filter_none (λ doc, Date_lt (Some (doc_lastModified doc)) None)). }
  simpl. unfold searchByDate. by rewrite E.
Qed.
End SearchByDate.

Lemma searchByDate_between_witness :
  well_formed_bound (H := Sample.externals) (Some "2024-01-01")
  ∧ searchByDate (H := Sample.externals) Sample.dated
      (Some "2024-01-01") (Some "2024-01-01")
    = DateResults [].
Proof.
  assert (Hwf : well_formed_bound (H := Sample.externals) (Some "2024-01-01")).
  { split; [reflexivity|]. exists 1704067200000%Z. vm_compute. reflexivity. }
  split; [exact Hwf|].
  destruct (searchByDate_between (H := Sample.externals) Sample.dated
              (Some "2024-01-01") (Some "2024-01-01") Hwf Hwf)
    as (docs & _ & _ & _ & _ & Hequal).
  apply Hequal; [reflexivity | discriminate].
Defined.

(** The scenario of the specification: of [a.md] (2024-01-01) and
    [b.md] (2024-03-01), only [b.md] was modified after 2024-02-01. *)
Example searchByDate_after_february :
  searchByDate (H := Sample.externals) Sample.dated (Some "2024-02-01") None
  = DateResults [ date_entry (Sample.doc "b.md" ["beta"] 1709251200000) ].
Proof. vm_compute. reflexivity. Qed.

Lemma searchByDate_unparseable_witness :
  unparseable_bound (H := Sample.externals) (Some "not-a-date")
  ∧ callTool (H := Sample.externals) Sample.dated
      (WithArguments (search_by_date (Some "not-a-date") None))
    = Return (DateResults []).
Proof.
  assert (Hbad : unparseable_bound (H := Sample.externals) (Some "not-a-date")).
  { split; reflexivity. }
  split; [exact Hbad|].
  exact (proj1 (proj1 (searchByDate_unparseable (H := Sample.externals)
                         Sample.dated (Some "not-a-date") None)
                  (or_introl Hbad))).
Defined.

(** C10 fails on the code: the store holds two documents, and the
    request for [search_by_date] that has no arguments object, hence
    neither bound, is answered with an error, not with the documents. *)
Lemma search_by_date_without_arguments :
  length (Map_values (documents Sample.dated)) = 2%nat
  ∧ callTool (H := Sample.externals) Sample.dated (NoArguments "search_by_date")
    = Throw "No arguments provided"
  ∧ is_error_reply
      (callTool (H := Sample.externals) Sample.dated (NoArguments "search_by_date"))
    = true.
Proof. vm_compute. auto. Qed.

(** C4 fails on the code: the bound [not-a-date] does not parse, and the
    call returns the empty list of an ordinary answer, not an error. *)
Lemma search_by_date_not_rejected :
  Date_parse (Externals := Sample.externals) "not-a-date" = None
  ∧ callTool (H := Sample.externals) Sample.dated
      (WithArguments (search_by_date (Some "not-a-date") None))
    = Return (DateResults [])
  ∧ is_error_reply
      (callTool (H := Sample.externals) Sample.dated
         (WithArguments (search_by_date (Some "not-a-date") None)))
    = false.
Proof. vm_compute. auto. Qed.

(** ** [rebuildSearchIndex] *)

(** C2, as the code has it: every rebuild indexes the documents of the
    store under the three keys [title], [content] and
    [frontmatter.tags] with the weights 0.3, 0.5 and 0.2: the body text
    weighs most, the title comes second and the tags last. *)
Theorem rebuildSearchIndex_weights (s : Server) :
  ∃ index,
    fuse (rebuildSearchIndex s) = Some index
    ∧ fuse_docs index = Map_values (documents s)
    ∧ map key_name (keys (fuse_options index)) = ["title"; "content"; "frontmatter.tags"]
    ∧ key_weight_of "title" index = Some (3 # 10)
    ∧ key_weight_of "content" index = Some (5 # 10)
    ∧ key_weight_of "frontmatter.tags" index = Some (2 # 10)
    ∧ (2 # 10 < 3 # 10)%Q ∧ (3 # 10 < 5 # 10)%Q.
Proof.
  eexists. split; [reflexivity|]. simpl. repeat split.
Qed.

(** C2 fails on the code: the title does not have the highest weight,
    the body text outweighs it. *)
Lemma rebuildSearchIndex_title_below_content :
  ∃ index title content,
    fuse (rebuildSearchIndex (new_server "docs")) = Some index
    ∧ key_weight_of "title" index = Some title
    ∧ key_weight_of "content" index = Some content
    ∧ (title < content)%Q.
Proof.
  eexists _, _, _. split; [reflexivity|]. repeat split.
Qed.

(** ** [search_documents] *)

Section SearchDocuments.
Context `{Externals}.

Lemma searchDocuments_reply (s : Server) (query : string) (limit : Z) :
  (fuse s = None ∧ searchDocuments s query limit = Text "No documents loaded yet")
  ∨ (∃ index hits,
       fuse s = Some index
       ∧ searchDocuments s query limit = SearchHits hits
       ∧ length hits = length (Fuse_search index query limit)).
Proof.
  unfold searchDocuments. destruct (fuse s) as [index|]; [right | left; done].
  eexists _, _. split; [reflexivity|]. split; [reflexivity|]. by rewrite length_map.
Qed.

(** C5, as the code has it: no [limit] is rejected.  A [limit] of [0],
    like an absent one, is replaced by the default [5]; every other
    [limit], negative ones included, is handed to the index as it is;
    the call always returns, with a list of hits once an index exists.
    For a positive [limit] the list has at most [limit] entries,
    provided the index returns at most [n] results for a [limit] [n]
    that is not negative. *)
Theorem search_documents_limit (s : Server) (query : string) :
  callTool s (WithArguments (search_documents query (Some 0%Z)))
  = callTool s (WithArguments (search_documents query (Some 5%Z)))
  ∧ callTool s (WithArguments (search_documents query None))
    = callTool s (WithArguments (search_documents query (Some 5%Z)))
  ∧ (∀ limit : Z, limit ≠ 0%Z →
       callTool s (WithArguments (search_documents query (Some limit)))
       = Return (searchDocuments s query limit))
  ∧ (∀ limit : option Z,
       ∃ result,
         callTool s (WithArguments (search_documents query limit)) = Return result
         ∧ (fuse s ≠ None → ∃ hits, result = SearchHits hits))
  ∧ ((∀ index q n, (0 ≤ n)%Z → (Z.of_nat (length (Fuse_search index q n)) ≤ n)%Z) →
     ∀ limit : Z, (0 < limit)%Z →
       ∀ hits,
         callTool s (WithArguments (search_documents query (Some limit)))
         = Return (SearchHits hits) →
         (Z.of_nat (length hits) ≤ limit)%Z).
Proof.
  repeat split.
  - intros limit Hlimit. simpl. by destruct (Z.eqb_spec limit 0).
  - intros limit. simpl. eexists. split; [reflexivity|]. intros Hfuse.
    destruct (searchDocuments_reply s query (number_or limit 5))
      as [[Hnone _] | (index & hits & _ & -> & _)]; [done | eauto].
  - intros Hfuse limit Hlimit hits. simpl.
    destruct (Z.eqb_spec limit 0) as [-> | _]; [lia|].
    destruct (searchDocuments_reply s query limit)
      as [[_ ->] | (index & hits' & _ & -> & Hlen)]; [done|].
    intros [= <-]. rewrite Hlen. apply Hfuse. lia.
Qed.
End SearchDocuments.

Lemma Sample_match_all_limit (index : Fuse) (q : string) (n : Z) :
  (0 ≤ n)%Z → (Z.of_nat (length (Sample.match_all index q n)) ≤ n)%Z.
Proof.
  intros Hn. unfold Sample.match_all, Array_slice0.
  destruct (Z.ltb_spec (-1) n); [|lia].
  destruct (Z.ltb_spec n 0); [lia|].
  rewrite length_firstn. lia.
Qed.

Lemma search_documents_limit_witness :
  ∃ hits,
    callTool (H := Sample.externals) Sample.dated
      (WithArguments (search_documents "alpha" (Some 1%Z)))
    = Return (SearchHits hits)
    ∧ (Z.of_nat (length hits) ≤ 1)%Z.
Proof.
  destruct (search_documents_limit (H := Sample.externals) Sample.dated "alpha")
    as (_ & _ & _ & Hreturns & Hbound).
  destruct (Hreturns (Some 1%Z)) as (result & Hcall & Hhits).
  destruct (Hhits ltac:(discriminate)) as (hits & ->).
  exists hits. split; [exact Hcall|].
  apply (Hbound Sample_match_all_limit 1%Z ltac:(lia) hits Hcall).
Defined.

(** C5 fails on the code: with a [limit] of [0] the call answers like a
    call with the default limit, and with a negative [limit] it answers
    too; neither answer is an error. *)
Lemma search_documents_zero_limit_accepted :
  callTool (H := Sample.externals) Sample.dated
    (WithArguments (search_documents "alpha" (Some 0%Z)))
  = callTool (H := Sample.externals) Sample.dated
      (WithArguments (search_documents "alpha" (Some 5%Z)))
  ∧ is_error_reply
      (callTool (H := Sample.externals) Sample.dated
         (WithArguments (search_documents "alpha" (Some 0%Z))))
    = false
  ∧ is_error_reply
      (callTool (H := Sample.externals) Sample.dated
         (WithArguments (search_documents "alpha" (Some (-1)%Z))))
    = false.
Proof. vm_compute. auto. Qed.

(** ** The synchroniser *)

Section Synchroniser.
Context `{Externals}.

Lemma continue_with_task (k : nat) (s : Server) (t t0 : Task) (st : State) :
  tasks st !! k = Some t0 → tasks (continue_with k (s, t) st) !! k = Some t.
Proof.
  intros Hk. simpl. apply list_lookup_insert_eq. by eapply lookup_lt_Some.
Qed.

Lemma step_docsPath (st st' : State) (c : Callback) :
  step st c = Some st' → docsPath (server st') = docsPath (server st).
Proof.
  destruct c as [[p|p|p]|k r|k r|k]; simpl.
  - by intros [= <-].
  - by intros [= <-].
  - by intros [= <-].
  - destruct (tasks st !! k) as [[]|]; try done. intros [= <-].
    unfold loadDocument_read. destruct r as [e|content]; [done|].
    by destruct (matter content) as [e|[fm md]].
  - destruct (tasks st !! k) as [[]|]; try done. intros [= <-].
    by destruct r.
  - destruct (tasks st !! k) as [[| |[e|u]| |]|]; try done; by intros [= <-].
Qed.

(** A callback changes the store entry of no other identity. *)
Lemma step_Map_get (st st' : State) (c : Callback) (id : string) :
  step st c = Some st' → written_id st c ≠ Some id →
  Map_get id (documents (server st')) = Map_get id (documents (server st)).
Proof.
  destruct c as [[p|p|p]|k r|k r|k]; simpl.
  - by intros [= <-].
  - by intros [= <-].
  - intros [= <-] Hid. simpl. apply Map_get_delete_ne. congruence.
  - destruct (tasks st !! k) as [[]|]; try done. intros [= <-] _.
    unfold loadDocument_read. destruct r as [e|content]; [done|].
    by destruct (matter content) as [e|[fm md]].
  - destruct (tasks st !! k) as [[]|]; try done. intros [= <-] Hid.
    destruct r as [e|mtime]; [done|]. simpl. apply Map_get_set_ne. congruence.
  - destruct (tasks st !! k) as [[| |[e|u]| |]|]; try done; by intros [= <-].
Qed.

Lemma run_Map_get (trace : list Callback) (st st' : State) (id : string) :
  run st trace = Some st' → leaves_alone id st trace →
  Map_get id (documents (server st')) = Map_get id (documents (server st)).
Proof.
  revert st. induction trace as [|c rest IH]; simpl; intros st.
  - by intros [= <-].
  - destruct (step st c) as [st1|] eqn:Hstep; [|done].
    intros Hrun [Hc Hrest].
    rewrite (IH st1 Hrun Hrest). by apply (step_Map_get st st1 c).
Qed.

(** The completion of a [stat] stores the record built from the read of
    that task, whatever the store held. *)
Lemma step_StatDone (st : State) (k : nat) (filePath : string)
    (frontmatter : Frontmatter) (markdown : string) (mtime : Z) :
  tasks st !! k = Some (AwaitStat filePath frontmatter markdown) →
  ∃ st',
    step st (StatDone k (inr mtime)) = Some st'
    ∧ Map_get (path_relative (docsPath (server st)) filePath) (documents (server st'))
      = Some (makeDocument (docsPath (server st)) filePath frontmatter markdown mtime)
    ∧ tasks st' !! k = Some (AwaitLoadDocument (inr ())).
Proof.
  intros Hk. simpl. rewrite Hk. eexists. split; [reflexivity|]. split.
  - simpl. apply Map_get_set_eq.
  - by apply (continue_with_task k _ _ _ st Hk).
Qed.

(** No handler ever rejects: [loadDocument] catches whatever fails
    inside it, so every task runs to [Finished]. *)
Lemma step_not_rejected (st st' : State) (c : Callback) :
  step st c = Some st' →
  Forall not_rejected (tasks st) → Forall not_rejected (tasks st').
Proof.
  destruct c as [[p|p|p]|k r|k r|k]; simpl.
  - intros [= <-] Hall. apply Forall_app. split; [done|]. by repeat constructor.
  - intros [= <-] Hall. apply Forall_app. split; [done|]. by repeat constructor.
  - by intros [= <-].
  - destruct (tasks st !! k) as [[]|]; try done. intros [= <-] Hall.
    apply Forall_insert; [done|].
    unfold loadDocument_read. destruct r as [e|content]; [done|].
    by destruct (matter content) as [e|[fm md]].
  - destruct (tasks st !! k) as [[]|]; try done. intros [= <-] Hall.
    apply Forall_insert; [done|]. by destruct r.
  - destruct (tasks st !! k) as [[| |[e|u]| |]|] eqn:Hk; try done;
      intros [= <-] Hall.
    + by destruct (Forall_lookup_1 _ _ _ _ Hall Hk).
    + by apply Forall_insert.
Qed.

Lemma run_not_rejected (trace : list Callback) (st st' : State) :
  run st trace = Some st' →
  Forall not_rejected (tasks st) → Forall not_rejected (tasks st').
Proof.
  revert st. induction trace as [|c rest IH]; simpl; intros st.
  - by intros [= <-].
  - destruct (step st c) as [st1|] eqn:Hstep; [|done].
    intros Hrun Hall. apply (IH st1 Hrun). by apply (step_not_rejected st st1 c).
Qed.

(** The keys of the store stay pairwise distinct. *)
Lemma step_NoDup (st st' : State) (c : Callback) :
  step st c = Some st' →
  List.NoDup (Map_keys (documents (server st))) →
  List.NoDup (Map_keys (documents (server st'))).
Proof.
  destruct c as [[p|p|p]|k r|k r|k]; simpl.
  - by intros [= <-].
  - by intros [= <-].
  - intros [= <-] Hnd. simpl. by apply Map_delete_NoDup.
  - destruct (tasks st !! k) as [[]|]; try done. intros [= <-] Hnd.
    unfold loadDocument_read. destruct r as [e|content]; [done|].
    by destruct (matter content) as [e|[fm md]].
  - destruct (tasks st !! k) as [[]|]; try done. intros [= <-] Hnd.
    destruct r as [e|mtime]; [done|]. simpl. by apply Map_set_NoDup.
  - destruct (tasks st !! k) as [[| |[e|u]| |]|]; try done; by intros [= <-].
Qed.

(** C3, as the code has it: when the read of a file fails during the
    handling of an add or change event (the [readFile] or the [stat]
    fails, or the front matter does not parse), the failure is logged,
    [loadDocument] returns normally, the handler goes on to rebuild the
    index and finishes, and the store is left as it was: a record that
    was loaded before stays. *)
Theorem failed_load_keeps_store (st : State) (k : nat) (filePath : string)
    (error : Error) (c : Callback) :
  load_fails st k filePath error c →
  ∃ st1 st2,
    step st c = Some st1
    ∧ documents (server st1) = documents (server st)
    ∧ console (server st1)
      = console (server st) ++ [ErrorLoadingDocument filePath error]
    ∧ tasks st1 !! k = Some (AwaitLoadDocument (inr ()))
    ∧ step st1 (Resume k) = Some st2
    ∧ documents (server st2) = documents (server st)
    ∧ console (server st2) = console (server st1)
    ∧ tasks st2 !! k = Some Finished.
Proof.
  intros Hfail.
  assert (Hstep : ∃ t, tasks st !! k = Some t
            ∧ step st c
              = Some (continue_with k (loadDocument_catch filePath error (server st)) st)).
  { destruct Hfail as [[Hk ->] | [(content & Hk & -> & Hm) | (fm & md & Hk & ->)]];
      simpl; rewrite Hk; eexists; (split; [reflexivity|]).
    - done.
    - unfold loadDocument_read. by rewrite Hm.
    - done. }
  destruct Hstep as (t & Hk & Hstep).
  pose proof (continue_with_task k
                (console_error (ErrorLoadingDocument filePath error) (server st))
                (AwaitLoadDocument (inr ())) t st Hk) as Hk1.
  eexists _, _. split; [exact Hstep|].
  split; [done|]. split; [done|]. split; [exact Hk1|].
  split; [simpl in *; by rewrite Hk1|].
  split; [done|]. split; [done|].
  by apply (continue_with_task k _ _ _ _ Hk1).
Qed.

(** C1, as the code has it: the store keeps the record of the load that
    completed last.  Once the [stat] of a task completes, the record
    built from that task's read is the store entry of its identity, and
    it stays so until another load of the same identity completes or the
    identity is unlinked, whichever event started the task. *)
Theorem last_completed_load_wins (st st' : State) (k : nat) (filePath : string)
    (frontmatter : Frontmatter) (markdown : string) (mtime : Z)
    (rest : list Callback) :
  tasks st !! k = Some (AwaitStat filePath frontmatter markdown) →
  run st (StatDone k (inr mtime) :: rest) = Some st' →
  (∀ st1, step st (StatDone k (inr mtime)) = Some st1 →
          leaves_alone (path_relative (docsPath (server st)) filePath) st1 rest) →
  Map_get (path_relative (docsPath (server st)) filePath) (documents (server st'))
  = Some (makeDocument (docsPath (server st)) filePath frontmatter markdown mtime).
Proof.
  intros Hk Hrun Hrest.
  destruct (step_StatDone st k filePath frontmatter markdown mtime Hk)
    as (st1 & Hstep & Hget & _).
  change (run st (StatDone k (inr mtime) :: rest))
    with (match step st (StatDone k (inr mtime)) with
          | Some st0 => run st0 rest
          | None => None
          end) in Hrun.
  rewrite Hstep in Hrun.
  rewrite (run_Map_get rest st1 st' _ Hrun (Hrest st1 Hstep)).
  exact Hget.
Qed.
End Synchroniser.

Lemma failed_load_keeps_store_witness :
  ∃ st1 st2,
    step (H := Sample.externals) (Sample.after Sample.loaded_then_changed)
      (ReadFileDone 1 (inl "ENOENT")) = Some st1
    ∧ documents (server st1)
      = documents (server (Sample.after Sample.loaded_then_changed))
    ∧ console (server st1)
      = console (server (Sample.after Sample.loaded_then_changed))
        ++ [ErrorLoadingDocument Sample.note "ENOENT"]
    ∧ tasks st1 !! 1 = Some (AwaitLoadDocument (inr ()))
    ∧ step (H := Sample.externals) st1 (Resume 1) = Some st2
    ∧ documents (server st2)
      = documents (server (Sample.after Sample.loaded_then_changed))
    ∧ console (server st2) = console (server st1)
    ∧ tasks st2 !! 1 = Some Finished.
Proof.
  apply (failed_load_keeps_store (H := Sample.externals)
           (Sample.after Sample.loaded_then_changed) 1 Sample.note "ENOENT").
  left. split; reflexivity.
Defined.

(** C3 fails on the code: a file is loaded, then changes, and the read
    of the change fails.  The failure is logged, but the store still
    holds the record loaded before, where a removed event for the same
    file leaves none. *)
Lemma failed_read_is_not_a_removal :
  ∃ st st',
    run (H := Sample.externals) Sample.start Sample.vanishing = Some st
    ∧ doc_content <$> Map_get "note.md" (documents (server st)) = Some "draft"
    ∧ last (console (server st)) = Some (ErrorLoadingDocument Sample.note "ENOENT")
    ∧ run (H := Sample.externals) Sample.start
        (Sample.loaded_then_changed ++ [Watch (unlink Sample.note)]) = Some st'
    ∧ Map_get "note.md" (documents (server st')) = None.
Proof.
  eexists _, _. split; [vm_compute; reflexivity|].
  split; [reflexivity|]. split; [reflexivity|].
  split; [vm_compute; reflexivity|]. reflexivity.
Qed.

Lemma last_completed_load_wins_witness :
  tasks (Sample.after Sample.racing_prefix) !! 1
  = Some (AwaitStat Sample.note Sample.no_frontmatter "first edit")
  ∧ Map_get "note.md" (documents (server (Sample.after Sample.racing)))
    = Some (makeDocument (H := Sample.externals) "docs" Sample.note
              Sample.no_frontmatter "first edit" 3).
Proof.
  assert (Hk : tasks (Sample.after Sample.racing_prefix) !! 1
               = Some (AwaitStat Sample.note Sample.no_frontmatter "first edit"))
    by reflexivity.
  split; [exact Hk|].
  apply (last_completed_load_wins (H := Sample.externals)
           (Sample.after Sample.racing_prefix) (Sample.after Sample.racing)
           1 Sample.note Sample.no_frontmatter "first edit" 3 [Resume 1] Hk).
  - vm_compute. reflexivity.
  - intros st1 Hstep. vm_compute in Hstep. injection Hstep as <-.
    split; [discriminate | exact I].
Defined.

(** C1 fails on the code: a file is added and modified twice; the reads
    return [draft], [first edit] and [second edit] in the order of the
    events, and the load of the first modification completes last.  All
    handlers have finished, and the store holds the content of the first
    modification, not of the second. *)
Lemma stale_load_overwrites_newer :
  ∃ st,
    run (H := Sample.externals) Sample.start Sample.racing = Some st
    ∧ tasks st = [Finished; Finished; Finished]
    ∧ doc_content <$> Map_get "note.md" (documents (server st)) = Some "first edit"
    ∧ doc_content <$> (fuse_docs <$> fuse (server st)) ≫= head = Some "first edit".
Proof.
  eexists. split; [vm_compute; reflexivity|]. repeat split.
Qed.

(** When every handler finishes before the next event is delivered, the
    store ends with the content of the second modification. *)
Example events_in_turn :
  ∃ st,
    run (H := Sample.externals) Sample.start Sample.in_turn = Some st
    ∧ doc_content <$> Map_get "note.md" (documents (server st)) = Some "second edit".
Proof.
  eexists. split; [vm_compute; reflexivity|]. reflexivity.
Qed.

(** * Further properties *)

(** ** Similarity as a function of the token sets *)

Lemma Qred_size_ratio_one (i u : nat) :
  u ≠ 0 → Qred (Z.of_nat i # Pos.of_nat u) = 1%Q → i = u.
Proof.
  intros Hu E.
  assert (Hq : (Z.of_nat i # Pos.of_nat u == 1)%Q) by (by rewrite <- Qred_correct, E).
  unfold Qeq in Hq; simpl in Hq. rewrite Z_pos_of_nat in Hq by done. lia.
Qed.

Lemma Qred_size_ratio_zero (i u : nat) :
  Qred (Z.of_nat i # Pos.of_nat u) = 0%Q → i = 0.
Proof.
  intros E.
  assert (Hq : (Z.of_nat i # Pos.of_nat u == 0)%Q) by (by rewrite <- Qred_correct, E).
  unfold Qeq in Hq; simpl in Hq. lia.
Qed.

(** X1: when at least one of two documents has a token, their
    similarity is the Jaccard index of their token sets, a value of
    [[0,1]]; it is [0] when one of the two has no token. *)
Theorem calculateSimilarity_is_jaccard (doc1 doc2 : Document) :
  token_set doc1 ∪ token_set doc2 ≠ ∅ →
  calculateSimilarity doc1 doc2 = Finite (jaccard (token_set doc1) (token_set doc2))
  ∧ in_unit_interval (calculateSimilarity doc1 doc2)
  ∧ (token_set doc1 = ∅ ∨ token_set doc2 = ∅ →
     calculateSimilarity doc1 doc2 = Finite 0).
Proof.
  intros Hne. destruct (calculateSimilarity_jaccard doc1 doc2 Hne) as [Hj Hu].
  split; [exact Hj|]. split; [exact Hu|].
  by apply calculateSimilarity_one_empty.
Qed.

Lemma calculateSimilarity_is_jaccard_witness :
  calculateSimilarity (Sample.doc "a.md" ["alpha"; "beta"] 0)
                      (Sample.doc "b.md" ["alpha"; "gamma"] 0)
  = Finite (jaccard (token_set (Sample.doc "a.md" ["alpha"; "beta"] 0))
                    (token_set (Sample.doc "b.md" ["alpha"; "gamma"] 0))).
Proof.
  apply calculateSimilarity_is_jaccard.
  intros E. apply (f_equal size) in E. vm_compute in E. discriminate.
Defined.

(** X2: a document with a token has similarity [1] to exactly the
    documents with the same token set. *)
Theorem calculateSimilarity_one_iff (a b : Document) :
  token_set a ≠ ∅ →
  calculateSimilarity a b = Finite 1 ↔ token_set a = token_set b.
Proof.
  intros Ha.
  assert (Hne : token_set a ∪ token_set b ≠ ∅).
  { intros E. apply Ha. apply (proj1 (empty_union_L _ _) E). }
  destruct (calculateSimilarity_jaccard a b Hne) as [-> _]. unfold jaccard. split.
  - intros [= E]. apply Qred_size_ratio_one in E; [|by apply size_nonzero].
    assert (Heq : token_set a ∩ token_set b = token_set a ∪ token_set b).
    { apply set_subseteq_size_eq; [|lia].
      etrans; [apply intersection_subseteq_l | apply union_subseteq_l]. }
    apply set_eq. intros x. split; intros Hx.
    + assert (Hx' : x ∈ token_set a ∪ token_set b) by (apply elem_of_union; by left).
      rewrite <- Heq in Hx'. by apply elem_of_intersection in Hx' as [_ ?].
    + assert (Hx' : x ∈ token_set a ∪ token_set b) by (apply elem_of_union; by right).
      rewrite <- Heq in Hx'. by apply elem_of_intersection in Hx' as [? _].
  - intros <-. rewrite (idemp_L (∩)), (idemp_L (∪)). f_equal.
    rewrite (Qred_complete _ 1); [done|].
    unfold Qeq; simpl. rewrite Z_pos_of_nat by (by apply size_nonzero). lia.
Qed.

Lemma calculateSimilarity_one_iff_witness :
  calculateSimilarity (Sample.doc "a.md" ["alpha"; "beta"] 0)
                      (Sample.doc "b.md" ["beta"; "alpha"; "beta"] 0)
  = Finite 1.
Proof.
  apply calculateSimilarity_one_iff.
  - intros E. apply (f_equal size) in E. vm_compute in E. discriminate.
  - apply set_eq. intros x. unfold token_set; simpl.
    rewrite !elem_of_union, !elem_of_singleton. tauto.
Defined.

(** X3: two documents that are not both without tokens have similarity
    [0] exactly when they share no token. *)
Theorem calculateSimilarity_zero_iff (a b : Document) :
  token_set a ∪ token_set b ≠ ∅ →
  calculateSimilarity a b = Finite 0 ↔ token_set a ∩ token_set b = ∅.
Proof.
  intros Hne. destruct (calculateSimilarity_jaccard a b Hne) as [-> _].
  unfold jaccard. split.
  - intros [= E]. apply Qred_size_ratio_zero in E.
    apply leibniz_equiv. by apply size_empty_inv.
  - intros ->. by rewrite size_empty.
Qed.

Lemma calculateSimilarity_zero_iff_witness :
  calculateSimilarity (Sample.doc "a.md" ["alpha"] 0) (Sample.doc "b.md" ["beta"] 0)
  = Finite 0.
Proof.
  apply calculateSimilarity_zero_iff.
  - intros E. apply (f_equal size) in E. vm_compute in E. discriminate.
  - apply leibniz_equiv, size_empty_inv. vm_compute. reflexivity.
Defined.

(** X4: the similarity depends on which tokens a document has, not on
    their order or on how often they occur. *)
Theorem calculateSimilarity_same_tokens (a a' b : Document) (tokens tokens' : list string) :
  doc_tokens a = Some tokens → doc_tokens a' = Some tokens' →
  (∀ x, In x tokens ↔ In x tokens') →
  calculateSimilarity a b = calculateSimilarity a' b
  ∧ calculateSimilarity b a = calculateSimilarity b a'.
Proof.
  intros Ha Ha' Hsame.
  assert (E : (list_to_set tokens : gset string) = list_to_set tokens').
  { apply set_eq. intros x. rewrite !elem_of_list_to_set, !list_elem_of_In. apply Hsame. }
  unfold calculateSimilarity. rewrite Ha, Ha', E. by destruct (doc_tokens b).
Qed.

Lemma calculateSimilarity_same_tokens_witness :
  calculateSimilarity (Sample.doc "a.md" ["x"; "y"] 0) (Sample.doc "b.md" ["y"; "z"] 0)
  = calculateSimilarity (Sample.doc "a.md" ["y"; "x"; "y"] 0) (Sample.doc "b.md" ["y"; "z"] 0).
Proof.
  apply (calculateSimilarity_same_tokens _ _ _ ["x"; "y"] ["y"; "x"; "y"]);
    [reflexivity | reflexivity |].
  intros x. simpl. tauto.
Defined.

(** ** How many documents [find_similar] returns *)

Lemma similarity_scores_length (targetDoc : Document) (id : string)
    (entries : JSMap Document) :
  length (similarity_scores targetDoc id entries) = length (Map_delete id entries).
Proof.
  unfold Map_delete. induction entries as [|[docId doc] rest IH]; simpl; [done|].
  destruct (String.eqb docId id); simpl; by rewrite IH.
Qed.

Section FindSimilarCount.
Context `{Externals}.

(** X5: for a stored document, [find_similar] returns as many entries
    as the limit leaves of the [n] other documents of the store: the
    smaller of [limit] and [n] for a positive limit, the smaller of [3]
    and [n] when the limit is absent or [0], and [n + limit] (none if
    that is negative) for a negative limit, which cuts entries from
    the end of the ranking. *)
Theorem find_similar_count (s : Server) (id : string) (targetDoc : Document)
    (limit : option Z) :
  Map_get id (documents s) = Some targetDoc →
  ∃ topResults,
    callTool s (WithArguments (find_similar id limit))
    = Return (SimilarDocuments topResults)
    ∧ Z.of_nat (length topResults)
      = (let n := Z.of_nat (length (Map_delete id (documents s))) in
         match limit with
         | None => Z.min 3 n
         | Some l =>
             if (l =? 0)%Z then Z.min 3 n
             else if (l <? 0)%Z then Z.max 0 (n + l)
             else Z.min l n
         end).
Proof.
  intros Hget. simpl. unfold findSimilarDocuments. rewrite Hget.
  eexists. split; [reflexivity|].
  assert (Hlen : ∀ l : Z,
    Z.of_nat (length (Array_slice0 l
       (Array_sort by_score_descending
          (similarity_scores targetDoc id (documents s)))))
    = (let n := Z.of_nat (length (Map_delete id (documents s))) in
       if (l <? 0)%Z then Z.max 0 (n + l) else Z.min l n)).
  { intros l. unfold Array_slice0.
    rewrite Array_sort_length, similarity_scores_length. simpl.
    destruct (Z.ltb_spec l 0); rewrite length_firstn, Array_sort_length,
      similarity_scores_length; lia. }
  rewrite Hlen. simpl.
  destruct limit as [l|]; simpl; [|done].
  by destruct (Z.eqb_spec l 0) as [-> | Hl].
Qed.
End FindSimilarCount.

Lemma find_similar_count_witness :
  ∃ topResults,
    callTool (H := Sample.externals) Sample.library
      (WithArguments (find_similar "a.md" (Some (-1)%Z)))
    = Return (SimilarDocuments topResults)
    ∧ Z.of_nat (length topResults) = 2%Z.
Proof.
  exact (find_similar_count (H := Sample.externals) Sample.library "a.md"
           (Sample.doc "a.md" ["x"; "y"] 1) (Some (-1)%Z) eq_refl).
Defined.

(** ** [listDocuments] *)













(** On the store of [Scenario.tagged], the tag [urgent] lists the
    document whose list has it and the one whose string contains it,
    not the one whose list has [urgently]. *)
Example listDocuments_tagged_urgent :
  listDocuments Scenario.tagged (Some "urgent")
  = Return (DocumentList
              [ list_entry (Scenario.with_tags "b.md"
                  (YamlArray [YamlString "urgent"; YamlString "home"]) 2);
                list_entry (Scenario.with_tags "c.md" (YamlString "not-urgent") 3) ]).
Proof. reflexivity. Qed.

(** ** The store under the watcher *)

Lemma Map_get_None_keys {V} (k : string) (m : JSMap V) :
  Map_get k m = None ↔ ¬ In k (Map_keys m).
Proof.
  unfold Map_get. induction m as [|[k' v'] r IH]; simpl; [tauto|].
  destruct (String.eqb k' k) eqn:E; simpl.
  - apply String.eqb_eq in E as ->. split; [done | tauto].
  - apply String.eqb_neq in E. rewrite IH. tauto.
Qed.

Lemma Map_set_keys_present {V} (k : string) (v : V) (m : JSMap V) :
  In k (Map_keys m) → Map_keys (Map_set k v m) = Map_keys m.
Proof.
  induction m as [|[k' v'] r IH]; simpl; [done|].
  destruct (String.eqb k' k) eqn:E; simpl.
  - by apply String.eqb_eq in E as ->.
  - apply String.eqb_neq in E. intros [? | Hin]; [done|]. by rewrite IH.
Qed.

Lemma Map_set_keys_absent {V} (k : string) (v : V) (m : JSMap V) :
  ¬ In k (Map_keys m) → Map_keys (Map_set k v m) = Map_keys m ++ [k].
Proof.
  induction m as [|[k' v'] r IH]; simpl; [done|].
  destruct (String.eqb k' k) eqn:E; simpl.
  - apply String.eqb_eq in E as ->. tauto.
  - intros Hnot. rewrite IH; [done | tauto].
Qed.

Lemma Forall_Map_set {V} (P : string * V → Prop) (k : string) (v : V) (m : JSMap V) :
  Forall P m → P (k, v) → Forall P (Map_set k v m).
Proof.
  intros Hm Hkv. induction Hm as [|[k' v'] r Hx Hr IH]; simpl.
  - by repeat constructor.
  - destruct (String.eqb k' k); by constructor.
Qed.

Lemma Forall_Map_delete {V} (P : string * V → Prop) (k : string) (m : JSMap V) :
  Forall P m → Forall P (Map_delete k m).
Proof.
  intros Hm. unfold Map_delete. induction Hm as [|[k' v'] r Hx Hr IH]; simpl; [done|].
  destruct (String.eqb k' k); simpl; [done | by constructor].
Qed.

Lemma Map_delete_sublist {V} (k : string) (m : JSMap V) : sublist (Map_delete k m) m.
Proof.
  unfold Map_delete. induction m as [|[k' v'] r IH]; simpl; [constructor|].
  destruct (String.eqb k' k); simpl; by constructor.
Qed.

Lemma Map_delete_absent {V} (k : string) (m : JSMap V) :
  Map_get k m = None → Map_delete k m = m.
Proof.
  unfold Map_get, Map_delete. induction m as [|[k' v'] r IH]; simpl; [done|].
  destruct (String.eqb k' k); simpl; [done|]. intros Hr. by rewrite IH.
Qed.

Lemma Map_delete_In {V} (k k' : string) (v : V) (m : JSMap V) :
  In (k', v) (Map_delete k m) → k' ≠ k ∧ In (k', v) m.
Proof.
  unfold Map_delete. rewrite filter_In. simpl. intros [Hin Hne].
  split; [|done]. apply String.eqb_neq. by destruct (String.eqb k' k).
Qed.

Lemma rebuildSearchIndex_fresh (s : Server) : index_fresh (rebuildSearchIndex s).
Proof. reflexivity. Qed.

Section Watcher.
Context `{Externals}.

(** X7: a removed event deletes the record of the file and rebuilds the
    index at once.  Afterwards [get_document] and [find_similar] answer
    that the document is not found, every other record is as before and
    in the same order, the index is the snapshot of the store, and (the
    records sitting under their own ids) holds no document with that
    id.  For a file that has no record the store does not change. *)
Theorem unlink_removes (st : State) (filePath : string) :
  ∃ st',
    step st (Watch (unlink filePath)) = Some st'
    ∧ tasks st' = tasks st
    ∧ callTool (server st')
        (WithArguments (get_document (path_relative (docsPath (server st)) filePath)))
      = Return (Text (String.append "Document not found: "
                        (path_relative (docsPath (server st)) filePath)))
    ∧ (∀ limit,
         callTool (server st')
           (WithArguments (find_similar (path_relative (docsPath (server st)) filePath) limit))
         = Return (Text (String.append "Document not found: "
                           (path_relative (docsPath (server st)) filePath))))
    ∧ (∀ id, id ≠ path_relative (docsPath (server st)) filePath →
         Map_get id (documents (server st')) = Map_get id (documents (server st)))
    ∧ sublist (documents (server st')) (documents (server st))
    ∧ index_fresh (server st')
    ∧ (store_ok (server st) →
       ∀ index doc, fuse (server st') = Some index → In doc (fuse_docs index) →
         doc_id doc ≠ path_relative (docsPath (server st)) filePath)
    ∧ (Map_get (path_relative (docsPath (server st)) filePath) (documents (server st)) = None →
       documents (server st') = documents (server st)).
Proof.
  eexists. split; [reflexivity|]. simpl.
  split; [done|].
  split. { unfold getDocument. simpl. by rewrite Map_get_delete_eq. }
  split. { intros limit. unfold findSimilarDocuments. simpl. by rewrite Map_get_delete_eq. }
  split. { intros id Hid. by apply Map_get_delete_ne. }
  split. { apply Map_delete_sublist. }
  split. { reflexivity. }
  split.
  - intros [_ Hok] index doc [= <-] Hin. simpl in Hin.
    apply in_map_iff in Hin as ([k d] & <- & Hin).
    apply Map_delete_In in Hin as [Hne Hin]. simpl.
    destruct (proj1 (List.Forall_forall _ _) Hok (k, d) Hin) as (Hid & _).
    simpl in Hid. congruence.
  - apply Map_delete_absent.
Qed.

End Watcher.

Lemma unlink_removes_witness :
  store_ok (H := Sample.externals) (server (Sample.after Sample.in_turn))
  ∧ ∃ st',
      step (H := Sample.externals) (Sample.after Sample.in_turn)
        (Watch (unlink Sample.note)) = Some st'
      ∧ ∀ index doc, fuse (server st') = Some index → In doc (fuse_docs index) →
          doc_id doc ≠ "note.md".
Proof.
  assert (Hok : store_ok (H := Sample.externals) (server (Sample.after Sample.in_turn))).
  { split; [repeat constructor; by intros []|]. by repeat constructor. }
  split; [exact Hok|].
  destruct (unlink_removes (H := Sample.externals) (Sample.after Sample.in_turn) Sample.note)
    as (st' & Hstep & _ & _ & _ & _ & _ & _ & Hindex & _).
  exists st'. split; [exact Hstep|]. exact (Hindex Hok).
Defined.

Section Loads.
Context `{Externals}.

Lemma run_cons (st st1 : State) (c : Callback) (rest : list Callback) :
  step st c = Some st1 → run st (c :: rest) = run st1 rest.
Proof.
  intros Hstep.
  change (run st (c :: rest))
    with (match step st c with Some st0 => run st0 rest | None => None end).
  by rewrite Hstep.
Qed.

(** X8: when a handler reads its file, parses it, stats it and resumes,
    with nothing in between, it finishes, logs no error, and the record
    built from that read can be fetched with [get_document]: the plain
    text of the body, the front matter and the modification time of the
    [stat].  The index is the snapshot of the store and holds the
    record. *)
Theorem load_then_get (st : State) (k : nat) (filePath content : string)
    (frontmatter : Frontmatter) (markdown : string) (mtime : Z) :
  tasks st !! k = Some (AwaitReadFile filePath) →
  matter content = inr (frontmatter, markdown) →
  ∃ st',
    run st [ReadFileDone k (inr content); StatDone k (inr mtime); Resume k] = Some st'
    ∧ tasks st' !! k = Some Finished
    ∧ console (server st') = console (server st)
    ∧ callTool (server st')
        (WithArguments (get_document (path_relative (docsPath (server st)) filePath)))
      = Return (DocumentJson
          {| view_id := path_relative (docsPath (server st)) filePath;
             view_title :=
               doc_title (makeDocument (docsPath (server st)) filePath
                            frontmatter markdown mtime);
             view_frontmatter := frontmatter;
             view_content := markdownToPlainText markdown;
             view_lastModified := mtime |})
    ∧ index_fresh (server st')
    ∧ ∃ index,
        fuse (server st') = Some index
        ∧ In (makeDocument (docsPath (server st)) filePath frontmatter markdown mtime)
             (fuse_docs index).
Proof.
  intros Hk Hmatter.
  set (doc := makeDocument (docsPath (server st)) filePath frontmatter markdown mtime).
  set (st1 := continue_with k (server st, AwaitStat filePath frontmatter markdown) st).
  assert (H1 : step st (ReadFileDone k (inr content)) = Some st1).
  { simpl. rewrite Hk. unfold loadDocument_read. by rewrite Hmatter. }
  assert (Hk1 : tasks st1 !! k = Some (AwaitStat filePath frontmatter markdown)).
  { by apply (continue_with_task k _ _ _ st Hk). }
  destruct (step_StatDone st1 k filePath frontmatter markdown mtime Hk1)
    as (st2 & H2 & Hget & Hk2).
  change (docsPath (server st1)) with (docsPath (server st)) in Hget. fold doc in Hget.
  set (st3 := continue_with k (rebuildSearchIndex (server st2), Finished) st2).
  assert (H3 : step st2 (Resume k) = Some st3).
  { simpl. by rewrite Hk2. }
  exists st3. split.
  { by rewrite (run_cons _ _ _ _ H1), (run_cons _ _ _ _ H2), (run_cons _ _ _ _ H3). }
  split. { by apply (continue_with_task k _ _ _ st2 Hk2). }
  split.
  { unfold step in H2. rewrite Hk1 in H2. by injection H2 as <-. }
  split.
  { simpl. unfold getDocument. simpl. by rewrite Hget. }
  split. { reflexivity. }
  eexists. split; [reflexivity|]. simpl.
  apply in_map_iff. exists (path_relative (docsPath (server st)) filePath, doc).
  split; [done|]. by apply Map_get_In.
Qed.

(** X9: a load writes its record at the place the store already has
    for that id, or at the end when the id is new: a changed document
    never moves in the iteration order of the store. *)
Theorem load_keeps_order (st : State) (k : nat) (filePath : string)
    (frontmatter : Frontmatter) (markdown : string) (mtime : Z) :
  tasks st !! k = Some (AwaitStat filePath frontmatter markdown) →
  ∃ st',
    step st (StatDone k (inr mtime)) = Some st'
    ∧ (In (path_relative (docsPath (server st)) filePath)
          (Map_keys (documents (server st))) →
       Map_keys (documents (server st')) = Map_keys (documents (server st)))
    ∧ (¬ In (path_relative (docsPath (server st)) filePath)
            (Map_keys (documents (server st))) →
       Map_keys (documents (server st'))
       = Map_keys (documents (server st))
         ++ [path_relative (docsPath (server st)) filePath]).
Proof.
  intros Hk. simpl. rewrite Hk. eexists. split; [reflexivity|]. simpl. split.
  - apply Map_set_keys_present.
  - apply Map_set_keys_absent.
Qed.

(** X10: callbacks that neither complete a load of an id nor unlink it
    leave what [get_document] answers for that id unchanged. *)
Theorem other_documents_untouched (trace : list Callback) (st st' : State) (id : string) :
  run st trace = Some st' → leaves_alone id st trace →
  callTool (server st') (WithArguments (get_document id))
  = callTool (server st) (WithArguments (get_document id)).
Proof.
  intros Hrun Hquiet. simpl. unfold getDocument.
  by rewrite (run_Map_get trace st st' id Hrun Hquiet).
Qed.

Lemma step_fuse (st st' : State) (c : Callback) :
  step st c = Some st' → is_Some (fuse (server st)) → is_Some (fuse (server st')).
Proof.
  destruct c as [[p|p|p]|k r|k r|k]; simpl.
  - by intros [= <-].
  - by intros [= <-].
  - by intros [= <-].
  - destruct (tasks st !! k) as [[]|]; try done. intros [= <-].
    unfold loadDocument_read. destruct r as [e|content]; [done|].
    by destruct (matter content) as [e|[fm md]].
  - destruct (tasks st !! k) as [[]|]; try done. intros [= <-]. by destruct r.
  - destruct (tasks st !! k) as [[| |[e|u]| |]|]; try done; by intros [= <-].
Qed.

(** X11: the index is never discarded.  Once it has been built, no
    sequence of callbacks leaves the server without one, and
    [search_documents] answers with a list of hits, never again with
    "No documents loaded yet". *)
Theorem index_never_discarded (trace : list Callback) (st st' : State)
    (query : string) (limit : option Z) :
  run st trace = Some st' → is_Some (fuse (server st)) →
  is_Some (fuse (server st'))
  ∧ ∃ hits,
      callTool (server st') (WithArguments (search_documents query limit))
      = Return (SearchHits hits).
Proof.
  intros Hrun Hfuse.
  assert (Hfuse' : is_Some (fuse (server st'))).
  { revert st Hrun Hfuse. induction trace as [|c rest IH]; simpl; intros st.
    - by intros [= <-].
    - destruct (step st c) as [st1|] eqn:Hstep; [|done].
      intros Hrun Hfuse. apply (IH st1 Hrun). by apply (step_fuse st st1 c). }
  split; [done|]. destruct Hfuse' as [index Hindex].
  simpl. unfold searchDocuments. rewrite Hindex. by eexists.
Qed.

Lemma lookup_insert_awaiting (tasks : list Task) (j k : nat) (t t' : Task) (settled : Error + unit) :
  tasks !! j = Some (AwaitLoadDocument settled) → tasks !! k = Some t →
  (∀ r, t ≠ AwaitLoadDocument r) →
  <[k := t']> tasks !! j = Some (AwaitLoadDocument settled).
Proof.
  intros Hj Hk Ht. rewrite list_lookup_insert_ne; [done|].
  intros <-. rewrite Hj in Hk. injection Hk as <-. by apply (Ht settled).
Qed.

Lemma step_index (st st' : State) (c : Callback) :
  step st c = Some st' → Forall not_rejected (tasks st) →
  awaiting_rebuild st ∨ index_fresh (server st) →
  awaiting_rebuild st' ∨ index_fresh (server st').
Proof.
  intros Hstep Hall Hinv.
  destruct c as [[p|p|p]|k r|k r|k]; simpl in Hstep.
  - injection Hstep as <-. destruct Hinv as [(j & r & Hj) | Hfresh]; [left | by right].
    exists j, r. simpl. by apply lookup_app_l_Some.
  - injection Hstep as <-. destruct Hinv as [(j & r & Hj) | Hfresh]; [left | by right].
    exists j, r. simpl. by apply lookup_app_l_Some.
  - injection Hstep as <-. right. reflexivity.
  - destruct (tasks st !! k) as [[p| | | |]|] eqn:Hk; try done. injection Hstep as <-.
    destruct Hinv as [(j & s & Hj) | Hfresh].
    + left. exists j, s. simpl. by apply (lookup_insert_awaiting _ j k _ _ s Hj Hk).
    + right. unfold loadDocument_read. destruct r as [e|content]; [done|].
      by destruct (matter content) as [e|[fm md]].
  - destruct (tasks st !! k) as [[|p fm md| | |]|] eqn:Hk; try done. injection Hstep as <-.
    left. exists k, (inr ()).
    destruct r; by apply (continue_with_task k _ _ _ st Hk).
  - destruct (tasks st !! k) as [[| |[e|u]| |]|] eqn:Hk; try done; injection Hstep as <-.
    + by destruct (Forall_lookup_1 _ _ _ _ Hall Hk).
    + right. reflexivity.
Qed.

(** X12: the index keeps up with the store.  Start the watcher on a
    server whose index is the snapshot of its store (a new server, or
    the server the initial scan leaves): in every state it reaches,
    either a handler whose [loadDocument] has returned is about to
    rebuild the index, or the index is exactly the snapshot of the
    store (not built yet only while the store is empty). *)
Theorem index_keeps_up (st0 st : State) (trace : list Callback) :
  run st0 trace = Some st →
  tasks st0 = [] → index_fresh (server st0) →
  awaiting_rebuild st ∨ index_fresh (server st).
Proof.
  assert (Hgen : ∀ st1, run st1 trace = Some st →
            Forall not_rejected (tasks st1) →
            awaiting_rebuild st1 ∨ index_fresh (server st1) →
            awaiting_rebuild st ∨ index_fresh (server st)).
  { induction trace as [|c rest IH]; simpl; intros st1.
    - by intros [= <-].
    - destruct (step st1 c) as [st2|] eqn:Hstep; [|done].
      intros Hrun Hall Hinv. apply (IH st2 Hrun).
      + by apply (step_not_rejected st1 st2 c).
      + by apply (step_index st1 st2 c). }
  intros Hrun Htasks Hfresh. apply (Hgen _ Hrun); [|by right].
  rewrite Htasks. constructor.
Qed.

Lemma step_store_ok (st st' : State) (c : Callback) :
  step st c = Some st' → store_ok (server st) → store_ok (server st').
Proof.
  intros Hstep [Hnd Hok]. split; [by apply (step_NoDup st st' c)|].
  rewrite (step_docsPath st st' c Hstep).
  destruct c as [[p|p|p]|k r|k r|k]; simpl in Hstep.
  - by injection Hstep as <-.
  - by injection Hstep as <-.
  - injection Hstep as <-. simpl. by apply Forall_Map_delete.
  - destruct (tasks st !! k) as [[]|]; try done. injection Hstep as <-.
    unfold loadDocument_read. destruct r as [e|content]; [done|].
    by destruct (matter content) as [e|[fm md]].
  - destruct (tasks st !! k) as [[]|]; try done. injection Hstep as <-.
    destruct r as [e|mtime]; [done|]. simpl. by apply Forall_Map_set.
  - destruct (tasks st !! k) as [[| |[e|u]| |]|]; try done; by injection Hstep as <-.
Qed.

(** X13: the watcher keeps the records of the store well formed.  From
    a store whose records are well formed (the empty store of a new
    server, or the store the initial scan leaves), every state the
    server reaches has a store in which no two records have the same
    id, each record sits under its own id, which is the path of its
    file relative to the root, and the tokens of a record are the
    tokens of its own content, so they come from the same read. *)
Theorem store_stays_ok (st0 st : State) (trace : list Callback) :
  run st0 trace = Some st → store_ok (server st0) → store_ok (server st).
Proof.
  revert st0. induction trace as [|c rest IH]; simpl; intros st0.
  - by intros [= <-].
  - destruct (step st0 c) as [st1|] eqn:Hstep; [|done].
    intros Hrun Hok. apply (IH st1 Hrun). by apply (step_store_ok st0 st1 c).
Qed.
End Loads.

Lemma load_then_get_witness :
  ∃ st',
    run (H := Sample.externals) (Sample.after Sample.loaded_then_changed)
      [ReadFileDone 1 (inr "revised text"); StatDone 1 (inr 7%Z); Resume 1] = Some st'
    ∧ callTool (H := Sample.externals) (server st')
        (WithArguments (get_document "note.md"))
      = Return (DocumentJson
          {| view_id := "note.md"; view_title := "docs/note.md";
             view_frontmatter := Sample.no_frontmatter;
             view_content := "revised text"; view_lastModified := 7 |}).
Proof.
  destruct (load_then_get (H := Sample.externals)
              (Sample.after Sample.loaded_then_changed) 1 Sample.note "revised text"
              Sample.no_frontmatter "revised text" 7 eq_refl eq_refl)
    as (st' & Hrun & _ & _ & Hget & _).
  exists st'. split; [exact Hrun | exact Hget].
Defined.

Lemma load_keeps_order_witness :
  ∃ st',
    step (H := Sample.externals) (Sample.after Sample.racing_prefix)
      (StatDone 1 (inr 3%Z)) = Some st'
    ∧ Map_keys (documents (server st'))
      = Map_keys (documents (server (Sample.after Sample.racing_prefix))).
Proof.
  destruct (load_keeps_order (H := Sample.externals)
              (Sample.after Sample.racing_prefix) 1 Sample.note
              Sample.no_frontmatter "first edit" 3 eq_refl)
    as (st' & Hstep & Hpresent & _).
  exists st'. split; [exact Hstep|]. apply Hpresent. left. reflexivity.
Defined.

Lemma other_documents_untouched_witness :
  callTool (H := Sample.externals)
    (server (Sample.after (Sample.in_turn ++ Scenario.another_file)))
    (WithArguments (get_document "note.md"))
  = callTool (H := Sample.externals) (server (Sample.after Sample.in_turn))
      (WithArguments (get_document "note.md")).
Proof.
  apply (other_documents_untouched (H := Sample.externals) Scenario.another_file).
  - vm_compute. reflexivity.
  - vm_compute. repeat (split; [discriminate|]). exact I.
Defined.

Lemma index_never_discarded_witness :
  ∃ hits,
    callTool (H := Sample.externals)
      (server (Sample.after (Sample.in_turn ++ [Watch (unlink Sample.note)])))
      (WithArguments (search_documents "edit" None))
    = Return (SearchHits hits).
Proof.
  apply (index_never_discarded (H := Sample.externals) [Watch (unlink Sample.note)]
           (Sample.after Sample.in_turn)).
  - vm_compute. reflexivity.
  - vm_compute. by eexists.
Defined.

Lemma index_keeps_up_witness :
  awaiting_rebuild (Sample.after Sample.racing_prefix)
  ∨ index_fresh (server (Sample.after Sample.racing_prefix)).
Proof.
  apply (index_keeps_up (H := Sample.externals) Sample.start _ Sample.racing_prefix).
  - vm_compute. reflexivity.
  - reflexivity.
  - reflexivity.
Defined.

Lemma store_stays_ok_witness :
  store_ok (H := Sample.externals) (server (Sample.after Sample.racing)).
Proof.
  apply (store_stays_ok (H := Sample.externals) Sample.start _ Sample.racing).
  - vm_compute. reflexivity.
  - split; constructor.
Defined.

(** ** Plain text, titles and excerpts *)

Lemma strip_tags_contains_gt (s : string) :
  (contains_gt (strip_tags s) = true → contains_gt s = true)
  ∧ (contains_gt (inside_tag s) = true → contains_gt s = true).
Proof.
  induction s as [|c r [IHs IHi]]; simpl; [done|]. split.
  - destruct (Ascii.eqb c "<" && contains_gt r) eqn:E; simpl.
    + intros Hi. rewrite (IHi Hi). apply orb_true_r.
    + intros Hk. apply orb_true_iff in Hk as [-> | Hk]; [done|].
      rewrite (IHs Hk). apply orb_true_r.
  - destruct (Ascii.eqb c ">"); simpl; [done|]. apply IHi.
Qed.

Lemma strip_tags_tag_free (s : string) :
  tag_free (strip_tags s) ∧ tag_free (inside_tag s).
Proof.
  induction s as [|c r [IHs IHi]]; simpl; [done|]. split.
  - destruct (Ascii.eqb c "<" && contains_gt r) eqn:E; simpl; [done|].
    split; [|done]. intros ->. simpl in E.
    destruct (contains_gt (strip_tags r)) eqn:Hgt; [|done].
    by rewrite (proj1 (strip_tags_contains_gt r) Hgt) in E.
  - by destruct (Ascii.eqb c ">").
Qed.

Lemma strip_tags_of_tag_free (s : string) : tag_free s → strip_tags s = s.
Proof.
  induction s as [|c r IH]; simpl; [done|]. intros [Hc Hr].
  destruct (Ascii.eqb c "<") eqn:E; simpl.
  - apply Ascii.eqb_eq in E. rewrite (Hc E). by rewrite IH.
  - by rewrite IH.
Qed.

Lemma strip_tags_length (s : string) :
  (String.length (strip_tags s) ≤ String.length s)%nat
  ∧ (String.length (inside_tag s) ≤ String.length s)%nat.
Proof.
  induction s as [|c r [IHs IHi]]; simpl; [done|]. split.
  - destruct (Ascii.eqb c "<" && contains_gt r); simpl; lia.
  - destruct (Ascii.eqb c ">"); lia.
Qed.

(** X14: stripping the tags leaves no tag behind, so stripping twice is
    stripping once; a text that holds no tag is returned as it is; and
    the result is never longer than the text. *)
Theorem strip_tags_clean (s : string) :
  tag_free (strip_tags s)
  ∧ strip_tags (strip_tags s) = strip_tags s
  ∧ (tag_free s → strip_tags s = s)
  ∧ (String.length (strip_tags s) ≤ String.length s)%nat.
Proof.
  split; [apply strip_tags_tag_free|].
  split; [apply strip_tags_of_tag_free, strip_tags_tag_free|].
  split; [apply strip_tags_of_tag_free | apply strip_tags_length].
Qed.

Lemma strip_tags_clean_witness :
  tag_free "1 < 2 and so on" ∧ strip_tags "1 < 2 and so on" = "1 < 2 and so on".
Proof.
  assert (Hfree : tag_free "1 < 2 and so on") by (simpl; tauto).
  split; [exact Hfree|].
  exact (proj1 (proj2 (proj2 (strip_tags_clean "1 < 2 and so on"))) Hfree).
Defined.

Lemma replace_dashes_dash_free (s : string) : dash_free (replace_dashes s).
Proof.
  induction s as [|c r IH]; simpl; [done|]. split; [|done].
  destruct (Ascii.eqb c "-") eqn:E; [done|]. by apply Ascii.eqb_neq.
Qed.

Lemma replace_dashes_length (s : string) :
  String.length (replace_dashes s) = String.length s.
Proof. induction s as [|c r IH]; simpl; [done|]. by rewrite IH. Qed.

Section Titles.
Context `{Externals}.

(** X15: the title of a loaded document is the [title] of its front
    matter when that is a non-empty string; otherwise (no title, or an
    empty one) it is the base name of the file with every dash turned
    into a blank: as long as the base name, and free of dashes. *)
Theorem makeDocument_title (root filePath : string) (frontmatter : Frontmatter)
    (markdown : string) (mtime : Z) :
  (∀ t, fm_title frontmatter = Some t → t ≠ "" →
        doc_title (makeDocument root filePath frontmatter markdown mtime) = t)
  ∧ (fm_title frontmatter = None ∨ fm_title frontmatter = Some "" →
     doc_title (makeDocument root filePath frontmatter markdown mtime)
     = replace_dashes (path_basename_md filePath)
     ∧ dash_free (doc_title (makeDocument root filePath frontmatter markdown mtime))
     ∧ String.length (doc_title (makeDocument root filePath frontmatter markdown mtime))
       = String.length (path_basename_md filePath)).
Proof.
  split.
  - intros t Ht Hne. simpl. rewrite Ht. unfold String_truthy.
    by rewrite (proj2 (String.eqb_neq t "")).
  - intros Hnone.
    assert (E : doc_title (makeDocument root filePath frontmatter markdown mtime)
                = replace_dashes (path_basename_md filePath)).
    { simpl. by destruct Hnone as [-> | ->]. }
    rewrite E. split; [done|].
    split; [apply replace_dashes_dash_free | apply replace_dashes_length].
Qed.
End Titles.

Lemma makeDocument_title_witness :
  doc_title (makeDocument (H := Sample.externals) "docs" "docs/to-do-list.md"
               Sample.no_frontmatter "buy milk" 5)
  = "docs/to do list.md".
Proof.
  destruct (proj2 (makeDocument_title (H := Sample.externals) "docs" "docs/to-do-list.md"
                     Sample.no_frontmatter "buy milk" 5) (or_introl eq_refl))
    as (E & _).
  exact E.
Defined.

Lemma substring_prefix_length (n : nat) (s : string) :
  String.length (substring 0 n s) = Nat.min n (String.length s).
Proof.
  revert n. induction s as [|c r IH]; intros [|n]; simpl; try done.
  by rewrite IH.
Qed.

Lemma substring_prefix_all (n : nat) (s : string) :
  (String.length s ≤ n)%nat → substring 0 n s = s.
Proof.
  revert n. induction s as [|c r IH]; intros [|n]; simpl; try done; [lia|].
  intros Hn. rewrite IH; [done | lia].
Qed.

Lemma append_length (s t : string) :
  String.length (String.append s t) = String.length s + String.length t.
Proof. induction s as [|c r IH]; simpl; [done|]. by rewrite IH. Qed.

Section Excerpts.
Context `{Externals}.

(** X16: every entry [searchByDate] returns is made of a document of
    the store; its excerpt is at most 153 characters long and always
    ends in the three dots, also when the content is shorter than 150
    characters and nothing was cut: the excerpt is then the whole
    content followed by the dots. *)
Theorem searchByDate_excerpts (s : Server) (after before : option string)
    (results : list DateEntry) (e : DateEntry) :
  searchByDate s after before = DateResults results → In e results →
  ∃ doc,
    In doc (Map_values (documents s))
    ∧ e = date_entry doc
    ∧ de_excerpt e = String.append (substring 0 150 (doc_content doc)) "..."
    ∧ String.length (de_excerpt e) = Nat.min 150 (String.length (doc_content doc)) + 3
    ∧ ((String.length (doc_content doc) ≤ 150)%nat →
       de_excerpt e = String.append (doc_content doc) "...").
Proof.
  unfold searchByDate. intros [= <-] He.
  apply in_map_iff in He as (doc & <- & Hdoc).
  exists doc. split.
  - unfold searchByDate_docs in Hdoc.
    apply (proj1 (Array_sort_In _ _ _)) in Hdoc.
    destruct before as [b|]; [destruct (String_truthy b)|];
      destruct after as [a|]; try destruct (String_truthy a);
      repeat (apply filter_In in Hdoc as [Hdoc _]); done.
  - split; [done|]. split; [done|]. simpl. unfold excerpt. split.
    + by rewrite append_length, substring_prefix_length.
    + intros Hshort. by rewrite substring_prefix_all.
Qed.
End Excerpts.

Lemma searchByDate_excerpts_witness :
  ∃ doc,
    In doc (Map_values (documents Sample.dated))
    ∧ date_entry (Sample.doc "b.md" ["beta"] 1709251200000) = date_entry doc
    ∧ de_excerpt (date_entry (Sample.doc "b.md" ["beta"] 1709251200000))
      = String.append (substring 0 150 (doc_content doc)) "..."
    ∧ String.length (de_excerpt (date_entry (Sample.doc "b.md" ["beta"] 1709251200000)))
      = Nat.min 150 (String.length (doc_content doc)) + 3
    ∧ ((String.length (doc_content doc) ≤ 150)%nat →
       de_excerpt (date_entry (Sample.doc "b.md" ["beta"] 1709251200000))
       = String.append (doc_content doc) "...").
Proof.
  apply (searchByDate_excerpts (H := Sample.externals) Sample.dated
           (Some "2024-02-01") None
           [date_entry (Sample.doc "b.md" ["beta"] 1709251200000)]).
  - vm_compute. reflexivity.
  - left. reflexivity.
Defined.

(** ** The initial scan *)

Section Scan.
Variable path_join : string → string → string.

#[local] Abbreviation lists_ := (lists_file path_join).
#[local] Abbreviation files_of_ := (entry_files path_join).

Lemma lists_file_inv (dir : string) (entries : list Dirent) (p : string) :
  lists_ dir entries p ↔
  (∃ name, In (Dirent_other name) entries
           ∧ String_endsWith name ".md" = true ∧ p = path_join dir name)
  ∨ (∃ name sub, In (Dirent_directory name (inr sub)) entries
                 ∧ lists_ (path_join dir name) sub p).
Proof.
  split.
  - destruct 1 as [dir entries name Hin Hmd | dir entries name sub p Hin Hp].
    + left. by exists name.
    + right. by exists name, sub.
  - intros [(name & Hin & Hmd & ->) | (name & sub & Hin & Hp)].
    + by apply lists_here.
    + by eapply lists_below.
Qed.

Lemma unreadable_below_inv (entries : list Dirent) :
  unreadable_below entries ↔
  (∃ name error, In (Dirent_directory name (inl error)) entries)
  ∨ (∃ name sub, In (Dirent_directory name (inr sub)) entries ∧ unreadable_below sub).
Proof.
  split.
  - destruct 1 as [entries name error Hin | entries name sub Hin Hsub].
    + left. by exists name, error.
    + right. by exists name, sub.
  - intros [(name & error & Hin) | (name & sub & Hin & Hsub)].
    + by eapply unreadable_here.
    + by eapply unreadable_deeper.
Qed.

Lemma lists_file_cons (dir : string) (e : Dirent) (r : list Dirent) (p : string) :
  lists_ dir (e :: r) p ↔ lists_ dir [e] p ∨ lists_ dir r p.
Proof.
  rewrite (lists_file_inv dir (e :: r)), (lists_file_inv dir [e]),
    (lists_file_inv dir r). simpl. split.
  - intros [(name & [-> | Hin] & Hmd & ->) | (name & sub & [-> | Hin] & Hp)].
    + left; left. exists name. tauto.
    + right; left. by exists name.
    + left; right. exists name, sub. tauto.
    + right; right. by exists name, sub.
  - intros [[(name & [-> | []] & Hmd & ->) | (name & sub & [-> | []] & Hp)]
           | [(name & Hin & Hmd & ->) | (name & sub & Hin & Hp)]].
    + left. exists name. tauto.
    + right. exists name, sub. tauto.
    + left. exists name. tauto.
    + right. exists name, sub. tauto.
Qed.

Lemma unreadable_below_cons (e : Dirent) (r : list Dirent) :
  unreadable_below (e :: r) ↔ unreadable_below [e] ∨ unreadable_below r.
Proof.
  rewrite (unreadable_below_inv (e :: r)), (unreadable_below_inv [e]),
    (unreadable_below_inv r). simpl. split.
  - intros [(name & error & [-> | Hin]) | (name & sub & [-> | Hin] & Hsub)].
    + left; left. exists name, error. tauto.
    + right; left. by exists name, error.
    + left; right. exists name, sub. tauto.
    + right; right. by exists name, sub.
  - intros [[(name & error & [-> | []]) | (name & sub & [-> | []] & Hsub)]
           | [(name & error & Hin) | (name & sub & Hin & Hsub)]].
    + left. exists name, error. tauto.
    + right. exists name, sub. tauto.
    + left. exists name, error. tauto.
    + right. exists name, sub. tauto.
Qed.

Lemma collect_files_scans (entries : list Dirent) :
  Forall (scans_entry path_join) entries →
  ∀ dir,
    (∀ files, collect_files (files_of_ dir) entries = inr files →
              ∀ p, In p files ↔ lists_ dir entries p)
    ∧ ((∃ error, collect_files (files_of_ dir) entries = inl error)
       ↔ unreadable_below entries).
Proof.
  induction 1 as [|e r He Hr IH]; intros dir.
  - split.
    + intros files [= <-] p. rewrite lists_file_inv. simpl.
      split; [done|]. by intros [(name & [] & _) | (name & sub & [] & _)].
    + rewrite unreadable_below_inv. simpl. split; [by intros [error ?]|].
      by intros [(name & error & []) | (name & sub & [] & _)].
  - destruct (He dir) as [Hfiles_e Herr_e]. destruct (IH dir) as [Hfiles_r Herr_r].
    simpl. split.
    + intros files Hc p.
      destruct (files_of_ dir e) as [error|found]; [done|].
      destruct (collect_files (files_of_ dir) r) as [error|more]; [done|].
      injection Hc as <-.
      rewrite in_app_iff, lists_file_cons, (Hfiles_e found eq_refl p),
        (Hfiles_r more eq_refl p). tauto.
    + rewrite unreadable_below_cons, <- Herr_e, <- Herr_r.
      destruct (files_of_ dir e) as [error|found].
      * split; [|by eexists]. intros _. left. by eexists.
      * destruct (collect_files (files_of_ dir) r) as [error|more].
        -- split; [|by eexists]. intros _. right. by eexists.
        -- split; [by intros [error ?]|]. by intros [[error ?] | [error ?]].
Qed.

Lemma entry_files_scans (e : Dirent) : scans_entry path_join e.
Proof.
  induction e as [name | name error | name sub IH] using Dirent_tree_ind; intros dir.
  - simpl. rewrite unreadable_below_inv. simpl. split.
    + intros files [= <-] p. rewrite lists_file_inv. simpl. split.
      * destruct (String_endsWith name ".md") eqn:Hmd; [|done].
        intros [<- | []]. left. exists name. tauto.
      * intros [(n & [[= <-] | []] & Hmd & ->) | (n & s & [? | []] & _)]; [|done].
        rewrite Hmd. by left.
    + split; [by intros [error ?]|].
      by intros [(n & error & [? | []]) | (n & s & [? | []] & _)].
  - simpl. split; [done|]. split; [|by eexists].
    intros _. eapply unreadable_here. by left.
  - destruct (collect_files_scans sub IH (path_join dir name)) as [Hfiles Herr].
    simpl. split.
    + intros files Hc p. rewrite (Hfiles files Hc p), (lists_file_inv dir [_]). simpl.
      split.
      * intros Hl. right. exists name, sub. tauto.
      * by intros [(n & [? | []] & _) | (n & s & [[= <- <-] | []] & Hq)].
    + rewrite Herr, (unreadable_below_inv [_]). simpl. split.
      * intros Hu. right. exists name, sub. tauto.
      * by intros [(n & error & [? | []]) | (n & s & [[= <- <-] | []] & Hs)].
Qed.

Lemma getMarkdownFiles_collect (dir : string) (entries : list Dirent) :
  ((∃ error, getMarkdownFiles path_join dir (inr entries) = inl error)
   ↔ unreadable_below entries)
  ∧ (∀ files, getMarkdownFiles path_join dir (inr entries) = inr files →
              ∀ p, In p files ↔ lists_ dir entries p).
Proof.
  destruct (collect_files_scans entries) with (dir := dir) as [Hfiles Herr].
  { apply List.Forall_forall. intros e _. apply entry_files_scans. }
  split; [exact Herr | exact Hfiles].
Qed.

(** X17: [getMarkdownFiles] fails exactly when some directory below the
    root cannot be read; otherwise it returns exactly the paths of the
    entries that are not directories and whose name ends in [.md],
    at any depth.  A directory is descended into whatever its name, and
    never listed itself. *)
Theorem getMarkdownFiles_scans (dir : string) (entries : list Dirent) :
  ((∃ error, getMarkdownFiles path_join dir (inr entries) = inl error)
   ↔ unreadable_below entries)
  ∧ (∀ files, getMarkdownFiles path_join dir (inr entries) = inr files →
              ∀ p, In p files ↔ lists_ dir entries p).
Proof.
  split.
  - apply (proj1 (getMarkdownFiles_collect dir entries)).
  - intros files Hfiles p. by apply (proj2 (getMarkdownFiles_collect dir entries)).
Qed.
End Scan.

Lemma getMarkdownFiles_scans_witness :
  getMarkdownFiles Scenario.join "docs" (inr Scenario.tree)
  = inr ["docs/readme.md"; "docs/sub/deep.md"]
  ∧ ∀ p, In p ["docs/readme.md"; "docs/sub/deep.md"]
         ↔ lists_file Scenario.join "docs" Scenario.tree p.
Proof.
  assert (E : getMarkdownFiles Scenario.join "docs" (inr Scenario.tree)
              = inr ["docs/readme.md"; "docs/sub/deep.md"]) by reflexivity.
  split; [exact E|].
  exact (proj2 (getMarkdownFiles_scans Scenario.join "docs" Scenario.tree) _ E).
Defined.

Section LoadDocuments.
Context `{Externals}.

Lemma loadDocument_effect (file : string) (read : Error + string) (stat : Error + Z)
    (s : Server) :
  docsPath (loadDocument file read stat s) = docsPath s
  ∧ fuse (loadDocument file read stat s) = fuse s
  ∧ documents (loadDocument file read stat s)
    = match loaded_record (docsPath s) file (read, stat) with
      | Some d => Map_set (doc_id d) d (documents s)
      | None => documents s
      end.
Proof.
  unfold loadDocument, loadDocument_read, loaded_record. simpl.
  destruct read as [e|content]; [done|].
  destruct (matter content) as [e|[fm md]]; [done|].
  by destruct stat as [e|mtime].
Qed.

Lemma loadDocument_store_ok (file : string) (read : Error + string) (stat : Error + Z)
    (s : Server) :
  store_ok s → store_ok (loadDocument file read stat s).
Proof.
  intros [Hnd Hok].
  destruct (loadDocument_effect file read stat s) as (Hroot & _ & Hdocs).
  unfold store_ok. rewrite Hroot, Hdocs.
  unfold loaded_record. simpl.
  destruct read as [e|content]; [done|].
  destruct (matter content) as [e|[fm md]]; [done|].
  destruct stat as [e|mtime]; [done|].
  split; [by apply Map_set_NoDup | by apply Forall_Map_set].
Qed.

Lemma loadDocuments_fold (io : string → (Error + string) * (Error + Z))
    (files : list string) (s : Server) :
  let s' := foldl (λ s file, loadDocument file (fst (io file)) (snd (io file)) s) s files in
  docsPath s' = docsPath s
  ∧ fuse s' = fuse s
  ∧ (store_ok s → store_ok s')
  ∧ ∀ id, In id (Map_keys (documents s')) ↔
          In id (Map_keys (documents s))
          ∨ ∃ file d, In file files
                      ∧ loaded_record (docsPath s) file (io file) = Some d
                      ∧ doc_id d = id.
Proof.
  revert s. induction files as [|file rest IH]; intros s; simpl.
  - split; [done|]. split; [done|]. split; [done|].
    intros id. split; [tauto|]. by intros [? | (file & d & [] & _)].
  - destruct (IH (loadDocument file (fst (io file)) (snd (io file)) s))
      as (Hroot & Hfuse & Hok & Hkeys).
    destruct (loadDocument_effect file (fst (io file)) (snd (io file)) s)
      as (Hroot1 & Hfuse1 & Hdocs1).
    rewrite Hroot1 in Hroot, Hkeys. rewrite Hfuse1 in Hfuse.
    split; [done|]. split; [done|].
    split. { intros Hs. by apply Hok, loadDocument_store_ok. }
    intros id. rewrite Hkeys, Hdocs1.
    replace (fst (io file), snd (io file)) with (io file) by (by destruct (io file)).
    destruct (loaded_record (docsPath s) file (io file)) as [d|] eqn:Hrec.
    + rewrite Map_set_keys. split.
      * intros [[-> | Hin] | (f & d' & Hf & Hd & Hid)].
        -- right. exists file, d. tauto.
        -- by left.
        -- right. exists f, d'. tauto.
      * intros [Hin | (f & d' & [<- | Hf] & Hd & Hid)].
        -- left. by right.
        -- left. left. rewrite Hrec in Hd. by injection Hd as <-.
        -- right. by exists f, d'.
    + split.
      * intros [Hin | (f & d' & Hf & Hd & Hid)]; [by left|].
        right. exists f, d'. tauto.
      * intros [Hin | (f & d' & [<- | Hf] & Hd & Hid)]; [by left | |].
        -- by rewrite Hrec in Hd.
        -- right. by exists f, d'.
Qed.

Lemma loadDocuments_keys (files : list string)
    (io : string → (Error + string) * (Error + Z)) (s : Server) (id : string) :
  In id (Map_keys (documents (fst (loadDocuments (inr files) io s)))) ↔
  ∃ file d, In file files
            ∧ loaded_record (docsPath s) file (io file) = Some d
            ∧ doc_id d = id.
Proof.
  unfold loadDocuments. simpl.
  set (s0 := {| docsPath := docsPath s; documents := []; fuse := fuse s;
                tfidf := []; console := console s |}).
  destruct (loadDocuments_fold io files s0) as (_ & _ & _ & Hkeys).
  rewrite (Hkeys id). simpl. split; [|tauto]. by intros [[] | ?].
Qed.

(** X18: given the files of the scan, [loadDocuments] starts from an
    empty store, whatever the store held: afterwards the ids of the
    store are exactly the ids of the files whose read, front matter and
    [stat] all succeeded (a file that fails is left out), the records
    are well formed, the index is built and is the snapshot of the
    store, and the count it reports is the size of the store.  When the
    scan itself failed it changes nothing and reports the error. *)
Theorem loadDocuments_scan (files : list string)
    (io : string → (Error + string) * (Error + Z)) (s : Server) :
  snd (loadDocuments (inr files) io s)
  = LoadedDocuments (length (documents (fst (loadDocuments (inr files) io s))))
  ∧ docsPath (fst (loadDocuments (inr files) io s)) = docsPath s
  ∧ store_ok (fst (loadDocuments (inr files) io s))
  ∧ index_fresh (fst (loadDocuments (inr files) io s))
  ∧ is_Some (fuse (fst (loadDocuments (inr files) io s)))
  ∧ (∀ id, In id (Map_keys (documents (fst (loadDocuments (inr files) io s)))) ↔
           ∃ file d, In file files
                     ∧ loaded_record (docsPath s) file (io file) = Some d
                     ∧ doc_id d = id)
  ∧ (∀ error, loadDocuments (inl error) io s = (s, ErrorLoadingDocuments error)).
Proof.
  split; [|split; [|split; [|split; [|split; [|split]]]]];
    try apply loadDocuments_keys; try done.
  - unfold loadDocuments. simpl.
    by destruct (loadDocuments_fold io files
                   {| docsPath := docsPath s; documents := []; fuse := fuse s;
                      tfidf := []; console := console s |}) as (Hroot & _).
  - unfold loadDocuments. simpl.
    destruct (loadDocuments_fold io files
                {| docsPath := docsPath s; documents := []; fuse := fuse s;
                   tfidf := []; console := console s |}) as (Hroot & _ & Hok & _).
    apply Hok. split; constructor.
Qed.

Section Abort.
Variable path_join : string → string → string.

(** X19: one directory that cannot be read aborts the whole initial
    load: [loadDocuments] reports the error and leaves the server as it
    was, so on a new server no index is built and [search_documents]
    answers "No documents loaded yet".  When every directory can be
    read, the store ends up with the ids of exactly the markdown files
    of the tree that could be loaded. *)
Theorem initial_scan (root : string) (entries : list Dirent)
    (io : string → (Error + string) * (Error + Z)) (s : Server) :
  (unreadable_below entries →
   (∃ error,
      loadDocuments (getMarkdownFiles path_join root (inr entries)) io s
      = (s, ErrorLoadingDocuments error))
   ∧ (fuse s = None →
      ∀ query limit,
        callTool (fst (loadDocuments (getMarkdownFiles path_join root (inr entries)) io s))
          (WithArguments (search_documents query limit))
        = Return (Text "No documents loaded yet")))
  ∧ (¬ unreadable_below entries →
     ∀ id,
       In id (Map_keys (documents
                (fst (loadDocuments (getMarkdownFiles path_join root (inr entries)) io s))))
       ↔ ∃ file d, lists_file path_join root entries file
                   ∧ loaded_record (docsPath s) file (io file) = Some d
                   ∧ doc_id d = id).
Proof.
  destruct (getMarkdownFiles_collect path_join root entries) as [Herr Hfiles].
  split.
  - intros Hu. apply Herr in Hu as [error ->]. split; [by exists error|].
    intros Hnone query limit. simpl. unfold searchDocuments. by rewrite Hnone.
  - intros Hreadable id.
    destruct (getMarkdownFiles path_join root (inr entries)) as [error|files] eqn:E.
    + destruct Hreadable. apply Herr. by exists error.
    + rewrite (loadDocuments_keys files io s id). split.
      * intros (file & d & Hin & Hrec & Hid). exists file, d.
        split; [|done]. by apply (Hfiles files eq_refl file).
      * intros (file & d & Hl & Hrec & Hid). exists file, d.
        split; [|done]. by apply (Hfiles files eq_refl file).
Qed.
End Abort.
End LoadDocuments.

Lemma initial_scan_witness :
  unreadable_below Scenario.locked_tree
  ∧ loadDocuments (H := Sample.externals)
      (getMarkdownFiles Scenario.join "docs" (inr Scenario.locked_tree))
      Scenario.disk (new_server "docs")
    = (new_server "docs", ErrorLoadingDocuments "EACCES").
Proof.
  assert (Hu : unreadable_below Scenario.locked_tree).
  { apply (unreadable_here _ "private" "EACCES"). do 3 right. by left. }
  split; [exact Hu|].
  destruct (proj1 (initial_scan (H := Sample.externals) Scenario.join "docs"
                     Scenario.locked_tree Scenario.disk (new_server "docs")) Hu)
    as [[error E] _].
  rewrite E. vm_compute in E. by injection E as <-.
Defined.

(** The tree that can be read loads its two markdown files. *)
Example initial_scan_tree :
  Map_keys (documents (fst (loadDocuments (H := Sample.externals)
              (getMarkdownFiles Scenario.join "docs" (inr Scenario.tree))
              Scenario.disk (new_server "docs"))))
  = ["readme.md"; "sub/deep.md"]
  ∧ snd (loadDocuments (H := Sample.externals)
           (getMarkdownFiles Scenario.join "docs" (inr Scenario.tree))
           Scenario.disk (new_server "docs"))
    = LoadedDocuments 2.
Proof. vm_compute. split; reflexivity. Qed.

(** ** The tools on a well-formed store *)

Lemma StronglySorted_split {A : Type} (R : A → A → Prop) (n : nat) (l : list A) :
  StronglySorted R l → ∀ a b, In a (firstn n l) → In b (skipn n l) → R a b.
Proof.
  intros Hs. revert n. induction Hs as [|x r Hs IH Hx]; intros [|n] a b; simpl; try done.
  intros [<- | Ha] Hb.
  - apply (proj1 (List.Forall_forall _ r) Hx).
    clear -Hb. revert n Hb. induction r as [|y r IH]; intros [|n]; simpl; try tauto.
    intros Hb. right. by apply (IH n).
  - by apply (IH n).
Qed.

Lemma similarity_scores_ids (targetDoc : Document) (id : string)
    (entries : JSMap Document) :
  map se_id (similarity_scores targetDoc id entries) = Map_keys (Map_delete id entries).
Proof.
  unfold Map_keys, Map_delete.
  induction entries as [|[docId doc] rest IH]; simpl; [done|].
  destruct (String.eqb docId id); simpl; by rewrite IH.
Qed.

Lemma NoDup_firstn {A : Type} (n : nat) (l : list A) :
  List.NoDup l → List.NoDup (firstn n l).
Proof.
  intros Hl. revert n. induction Hl as [|x r Hx Hr IH]; intros [|n]; simpl;
    try constructor; [|apply IH].
  intros Hin. apply Hx. by apply (In_firstn_inv n).
Qed.

Lemma Array_slice0_firstn {A : Type} (limit : Z) (l : list A) :
  ∃ n, Array_slice0 limit l = firstn n l.
Proof. unfold Array_slice0. destruct (limit <? 0)%Z; by eexists. Qed.

Lemma similarity_scores_entries (targetDoc : Document) (id : string)
    (entries : JSMap Document) :
  similarity_scores targetDoc id entries
  = map (score_entry targetDoc) (other_entries id entries).
Proof.
  unfold other_entries.
  induction entries as [|[docId doc] rest IH]; simpl; [done|].
  destruct (String.eqb docId id); simpl; by rewrite IH.
Qed.

(** X20: for a stored document, [find_similar] returns the best of the
    other documents of the store.  The entries it returns, together
    with the entries the limit cuts off, are the entries of the store
    under another key than the target's, each once and each with its
    key, its title and its similarity to the target; and no entry that
    is cut off has a greater score than an entry that is returned. *)
Theorem findSimilarDocuments_top (s : Server) (id : string) (targetDoc : Document)
    (limit : Z) :
  Map_get id (documents s) = Some targetDoc →
  ∃ topResults rest,
    findSimilarDocuments s id limit = SimilarDocuments topResults
    ∧ Permutation (topResults ++ rest)
        (map (score_entry targetDoc) (other_entries id (documents s)))
    ∧ ∀ a b, In a topResults → In b rest →
             number_lt (se_score a) (se_score b) = false.
Proof.
  intros Hget. unfold findSimilarDocuments. rewrite Hget.
  set (ranking := Array_sort by_score_descending
                    (similarity_scores targetDoc id (documents s))).
  destruct (Array_slice0_firstn limit ranking) as [n ->].
  exists (firstn n ranking), (skipn n ranking).
  split; [done|]. split.
  - rewrite firstn_skipn, <- similarity_scores_entries.
    apply Array_sort_Permutation.
  - apply StronglySorted_split, Array_sort_by_score_sorted,
      similarity_scores_consistent.
Qed.

Lemma findSimilarDocuments_top_witness :
  ∃ topResults rest,
    findSimilarDocuments Sample.library "a.md" 1 = SimilarDocuments topResults
    ∧ Permutation (topResults ++ rest)
        (map (score_entry (Sample.doc "a.md" ["x"; "y"] 1))
             (other_entries "a.md" (documents Sample.library)))
    ∧ ∀ a b, In a topResults → In b rest →
             number_lt (se_score a) (se_score b) = false.
Proof.
  exact (findSimilarDocuments_top Sample.library "a.md"
           (Sample.doc "a.md" ["x"; "y"] 1) 1 eq_refl).
Defined.

Section WellFormedStore.
Context `{Externals}.

Lemma store_ok_ids (s : Server) :
  store_ok s → map doc_id (Map_values (documents s)) = Map_keys (documents s).
Proof.
  intros [_ Hok]. unfold Map_values, Map_keys.
  induction Hok as [|[k d] r Hkd Hr IH]; simpl; [done|].
  destruct Hkd as (Hid & _). simpl in Hid. by rewrite Hid, IH.
Qed.

(** X21: on a store whose records are well formed (as they are in
    every state the server reaches), [get_document] answers a request
    for an id with a document of that id or with "not found";
    [list_documents] lists every id of the store once; and
    [find_similar] names no document twice. *)
Theorem tools_on_store (s : Server) :
  store_ok s →
  (∀ id,
     callTool s (WithArguments (get_document id))
     = Return (Text (String.append "Document not found: " id))
     ∨ ∃ view, callTool s (WithArguments (get_document id)) = Return (DocumentJson view)
               ∧ view_id view = id)
  ∧ (∃ entries,
       callTool s (WithArguments (list_documents None)) = Return (DocumentList entries)
       ∧ map entry_id entries = Map_keys (documents s)
       ∧ List.NoDup (map entry_id entries))
  ∧ (∀ id limit topResults,
       callTool s (WithArguments (find_similar id limit))
       = Return (SimilarDocuments topResults) →
       List.NoDup (map se_id topResults)).
Proof.
  intros Hs. pose proof Hs as [Hnd Hok]. split; [|split].
  - intros id. simpl. unfold getDocument.
    destruct (Map_get id (documents s)) as [d|] eqn:Hget; [right | by left].
    eexists. split; [reflexivity|]. simpl.
    apply Map_get_In in Hget.
    by destruct (proj1 (List.Forall_forall _ _) Hok (id, d) Hget) as (Hid & _).
  - eexists. split; [reflexivity|].
    assert (E : map entry_id
                  (map (λ doc, {| entry_id := doc_id doc; entry_title := doc_title doc;
                                  entry_tags := tags_or_empty (doc_frontmatter doc);
                                  entry_lastModified := doc_lastModified doc |})
                       (Map_values (documents s)))
                = Map_keys (documents s)).
    { rewrite map_map. simpl. by apply store_ok_ids. }
    split; [exact E | by rewrite E].
  - intros id limit topResults. simpl. unfold findSimilarDocuments.
    destruct (Map_get id (documents s)) as [targetDoc|]; [|done].
    destruct (Array_slice0_firstn (number_or limit 3)
                (Array_sort by_score_descending
                   (similarity_scores targetDoc id (documents s)))) as [n ->].
    intros [= <-]. rewrite <- firstn_map. apply NoDup_firstn.
    apply (Permutation_NoDup
             (l := map se_id (similarity_scores targetDoc id (documents s)))).
    + apply Permutation_map. symmetry. apply Array_sort_Permutation.
    + rewrite similarity_scores_ids. by apply Map_delete_NoDup.
Qed.
End WellFormedStore.

Lemma tools_on_store_witness :
  ∃ entries,
    callTool (H := Sample.externals) (server (Sample.after Sample.racing))
      (WithArguments (list_documents None))
    = Return (DocumentList entries)
    ∧ map entry_id entries = Map_keys (documents (server (Sample.after Sample.racing)))
    ∧ List.NoDup (map entry_id entries).
Proof.
  apply (tools_on_store (H := Sample.externals) (server (Sample.after Sample.racing))).
  split; [repeat constructor; by intros []|]. by repeat constructor.
Defined.
